(** * vscode-addr2line: a shallow embedding of [src/extension.ts]

    The extension turns kernel backtrace frames printed in a terminal into
    links, resolves them through a long-lived [addr2line] child process and
    opens the file the resolver names.  This file embeds

    - the JavaScript string primitives the code calls ([trim], [split],
      [parseInt], [matchAll] on one regular expression),
    - the link scanner [provideTerminalLinks],
    - the output parser and dispatcher of [handleTerminalLink],
    - the [Addr2Line] process wrapper ([start], [stop], [resolveAddress]),
      the target watcher [monitorTarget], and the events the host delivers
      (child close/error/data, timers, watcher notifications),

    and proves the properties of the specification about them. *)

From Stdlib Require Import List NArith ZArith Bool Lia String Ascii.
From Stdlib Require Import DecimalString.
Import ListNotations.

(* ===================================================================== *)
(** * JavaScript strings                                                   *)
(* ===================================================================== *)

(** A JavaScript string is a sequence of UTF-16 code units; indices and
    lengths ([match.index], [.length]) count code units. *)
Definition code_unit := N.
Definition jsstring := list code_unit.

(** ASCII literals of the source, as code units. *)
Definition js (s : string) : jsstring :=
  map N_of_ascii (list_ascii_of_string s).

Definition cu_space : code_unit := 32%N.
Definition cu_plus : code_unit := 43%N.
Definition cu_colon : code_unit := 58%N.
Definition cu_newline : code_unit := 10%N.
Definition cu_minus : code_unit := 45%N.

(** [WhiteSpace] and [LineTerminator] of ECMAScript: what [trim] strips and
    what [parseInt] skips in front of the number. *)
Definition is_white (c : code_unit) : bool :=
  ((9 <=? c) && (c <=? 13) || (c =? 32) || (c =? 160) || (c =? 5760)
   || (8192 <=? c) && (c <=? 8202) || (c =? 8232) || (c =? 8233)
   || (c =? 8239) || (c =? 8287) || (c =? 12288) || (c =? 65279))%N.

Fixpoint trimStart (s : jsstring) : jsstring :=
  match s with
  | [] => []
  | c :: s' => if is_white c then trimStart s' else s
  end.

Definition trimEnd (s : jsstring) : jsstring := rev (trimStart (rev s)).

(** [String.prototype.trim] *)
Definition trim (s : jsstring) : jsstring := trimEnd (trimStart s).

(** [String.prototype.split] with a one-code-unit separator: the pieces
    between the separators, in order; never an empty array. *)
Fixpoint split (sep : code_unit) (s : jsstring) : list jsstring :=
  match s with
  | [] => [[]]
  | c :: s' =>
      if (c =? sep)%N then [] :: split sep s'
      else match split sep s' with
           | piece :: pieces => (c :: piece) :: pieces
           | [] => [[c]]
           end
  end.

(** A JavaScript number as far as this program looks at it: [NaN] or an
    integer.  [Num z] stands for the double nearest to [z]: it is [z]
    itself up to [max_safe_integer] in absolute value, and the rounding
    beyond is not modelled, so a property that states a value computed
    from [z] carries that bound. *)
Inductive number : Type :=
| NaN
| Num (z : Z).

(** 2^53: up to here integers and their arithmetic are exact. *)
Definition max_safe_integer : Z := 9007199254740992.

Definition is_digit (c : code_unit) : bool := ((48 <=? c) && (c <=? 57))%N.

Definition digit_value (c : code_unit) : Z := Z.of_N (c - 48).

(** Value of the longest prefix of decimal digits, with the count of the
    digits read. *)
Fixpoint digits (acc : Z) (read : nat) (s : jsstring) : Z * nat :=
  match s with
  | c :: s' =>
      if is_digit c then digits (10 * acc + digit_value c) (S read) s'
      else (acc, read)
  | [] => (acc, read)
  end.

(** Where the text stops being a number: at its end or at a code unit that
    is no digit. *)
Definition stops (b : jsstring) : Prop :=
  match b with [] => True | c :: _ => is_digit c = false end.

(** [parseInt(s, 10)] on a string: skip leading white space, take one
    optional sign, read the longest run of decimal digits; [NaN] when the
    run is empty.  With radix 10 no "0x" prefix is stripped. *)
Definition parseInt_string (s : jsstring) : number :=
  let s1 := trimStart s in
  let '(sign, s2) :=
    match s1 with
    | c :: s' =>
        if (c =? cu_minus)%N then ((-1)%Z, s')
        else if (c =? cu_plus)%N then (1%Z, s')
        else (1%Z, s1)
    | [] => (1%Z, s1)
    end in
  match digits 0 0 s2 with
  | (_, O) => NaN
  | (v, S _) => Num (sign * v)
  end.

(** [parseInt(x, 10)] where [x] may be [undefined]: the argument is first
    converted to the string "undefined", which holds no digit. *)
Definition parseInt (x : option jsstring) : number :=
  match x with
  | Some s => parseInt_string s
  | None => parseInt_string (js "undefined")
  end.

Definition isNaN (n : number) : bool :=
  match n with NaN => true | Num _ => false end.

(* ===================================================================== *)
(** * The regular expression of [provideTerminalLinks]                     *)
(* ===================================================================== *)

(** A character matcher: a literal code unit, or a class given by ranges,
    possibly negated.  No flag other than [g] is set, so matching is by
    code unit and case sensitive. *)
Inductive cset : Type :=
| Lit (c : code_unit)
| Class (negated : bool) (ranges : list (code_unit * code_unit)).

Definition in_range (c : code_unit) (r : code_unit * code_unit) : bool :=
  ((fst r <=? c) && (c <=? snd r))%N.

Definition accepts (cs : cset) (c : code_unit) : bool :=
  match cs with
  | Lit c' => (c =? c')%N
  | Class neg ranges => xorb neg (existsb (in_range c) ranges)
  end.

(** The terms the pattern is made of: [x] and the greedy [x+]. *)
Inductive term : Type :=
| One (cs : cset)
| Many1 (cs : cset).

Definition regex := list term.

(** [/[^+\ :]+\+0x[0-9a-f]+\/0x[0-9a-f]+/] *)
Definition symbol_chars : cset :=
  Class true [(43, 43); (32, 32); (58, 58)]%N.
Definition hex_chars : cset := Class false [(48, 57); (97, 102)]%N.

Definition frame_regex : regex :=
  [ Many1 symbol_chars;
    One (Lit 43); One (Lit 48); One (Lit 120); Many1 hex_chars;
    One (Lit 47); One (Lit 48); One (Lit 120); Many1 hex_chars ]%N.

(** The backtracking matcher of ECMAScript, anchored at the head of [s]:
    the number of code units of the first match found, a greedy [x+]
    trying the longest repetition first and giving code units back one at
    a time while the rest of the pattern fails. *)
Definition many1 (cs : cset) (k : jsstring -> option nat)
    : jsstring -> option nat :=
  fix many (s : jsstring) : option nat :=
    match s with
    | c :: s' =>
        if accepts cs c then
          match many s' with
          | Some n => Some (S n)
          | None => option_map S (k s')
          end
        else None
    | [] => None
    end.

Fixpoint match_here (r : regex) (s : jsstring) {struct r} : option nat :=
  match r with
  | [] => Some O
  | One cs :: r' =>
      match s with
      | c :: s' => if accepts cs c then option_map S (match_here r' s') else None
      | [] => None
      end
  | Many1 cs :: r' => many1 cs (match_here r') s
  end.

(** One element of the iterator [line.matchAll(regex)]: [match.index] and
    [match[0]]. *)
Record regmatch : Type := { index : nat; matched : jsstring }.

(** [matchAll] with the [g] flag: scan from [lastIndex]; after a match
    continue behind it (one code unit further when the match is empty);
    stop when the end of the string has been tried.  [skip] counts the code
    units of the last match that are still to be passed over. *)
Fixpoint scan (r : regex) (i skip : nat) (s : jsstring) : list regmatch :=
  match s with
  | [] =>
      match skip, match_here r [] with
      | O, Some _ => [{| index := i; matched := [] |}]
      | _, _ => []
      end
  | _ :: s' =>
      match skip with
      | S k => scan r (S i) k s'
      | O =>
          match match_here r s with
          | Some n =>
              {| index := i; matched := firstn n s |} :: scan r (S i) (pred n) s'
          | None => scan r (S i) O s'
          end
      end
  end.

Definition matchAll (r : regex) (line : jsstring) : list regmatch :=
  scan r 0 0 line.

(* ===================================================================== *)
(** * [provideTerminalLinks]                                               *)
(* ===================================================================== *)

(** [vscode.TerminalLink & { link: string }] *)
Record Addr2lineTerminalLink : Type := {
  startIndex : nat;
  length : nat;
  tooltip : jsstring;
  link : jsstring
}.

Definition link_tooltip (target : jsstring) : jsstring :=
  js "addr2line -e " ++ target ++ js " this address".

(** The body of the [for ... of] loop: one [links.push]. *)
Definition push_link (target : jsstring) (links : list Addr2lineTerminalLink)
    (m : regmatch) : list Addr2lineTerminalLink :=
  links ++ [{| startIndex := index m;
               length := List.length (matched m);
               tooltip := link_tooltip target;
               link := matched m |}].

(** [provideTerminalLinks] (extension.ts, lines 108-123): [target] is the
    configured "addr2line.target", [line] is [context.line]. *)
Definition provideTerminalLinks (target line : jsstring)
    : list Addr2lineTerminalLink :=
  fold_left (push_link target) (matchAll frame_regex line) [].

(** The link pushed for one match. *)
Definition link_of_match (target : jsstring) (m : regmatch)
    : Addr2lineTerminalLink :=
  {| startIndex := index m;
     length := List.length (matched m);
     tooltip := link_tooltip target;
     link := matched m |}.

(** The language of a pattern, read off its terms: what "a match of the
    regular expression" means, independently of the matcher. *)
Inductive in_lang : regex -> jsstring -> Prop :=
| lang_nil : in_lang [] []
| lang_one : forall cs r c t,
    accepts cs c = true -> in_lang r t -> in_lang (One cs :: r) (c :: t)
| lang_last : forall cs r c t,
    accepts cs c = true -> in_lang r t -> in_lang (Many1 cs :: r) (c :: t)
| lang_more : forall cs r c t,
    accepts cs c = true -> in_lang (Many1 cs :: r) t ->
    in_lang (Many1 cs :: r) (c :: t).

Definition cset_of (t : term) : cset :=
  match t with One cs => cs | Many1 cs => cs end.

(** A code unit no term of the pattern accepts: no match contains it. *)
Definition blocks (r : regex) (c : code_unit) : bool :=
  forallb (fun t => negb (accepts (cset_of t) c)) r.

(** The text before a frame ends, and the text behind it starts, with a
    code unit the pattern cannot cross (for this pattern: a space or a
    colon), or is empty. *)
Definition ends_blocked (r : regex) (pre : jsstring) : Prop :=
  pre = [] \/ exists p c, pre = p ++ [c] /\ blocks r c = true.

Definition starts_blocked (r : regex) (post : jsstring) : Prop :=
  post = [] \/ exists c q, post = c :: q /\ blocks r c = true.

(* ===================================================================== *)
(** * The host: configuration, workspace, file system, [path]              *)
(* ===================================================================== *)

(** What the extension reads from its surroundings each time it runs:
    the two settings, [vscode.workspace.workspaceFolders] (the [uri.path]
    of each folder, or [undefined]), [fs.existsSync], and Node's
    [path.resolve] and [path.relative]. *)
Record host : Type := {
  cfg_command : jsstring;
  cfg_target : jsstring;
  workspaceFolders : option (list jsstring);
  existsSync : jsstring -> bool;
  path_resolve : jsstring -> jsstring -> jsstring;
  path_relative : jsstring -> jsstring -> jsstring
}.

(* ===================================================================== *)
(** * The [then] callback of [handleTerminalLink]                          *)
(* ===================================================================== *)

Record QuickPickItem : Type := {
  label : jsstring;
  description : option jsstring
}.

(** What the extension asks the editor to do.  [ShowTextDocument] is
    [openTextDocument] followed by [showTextDocument] with the cursor on a
    row; [OpenTextDocumentOnly] is [openTextDocument] whose callback threw
    before [showTextDocument] was reached, so that nothing is shown. *)
Inductive ui_action : Type :=
| ShowTextDocument (file : jsstring) (selection_line : number)
| OpenTextDocumentOnly (file : jsstring)
| ShowQuickPick (items : list QuickPickItem) (realPaths : list jsstring)
    (lines : list number)
| ShowErrorMessage (msg : jsstring).

Definition number_pred (n : number) : number :=
  match n with NaN => NaN | Num z => Num (z - 1) end.

(** [openFileLine(file, line)] (lines 7-14): the document is opened and,
    in the callback, [new vscode.Range(line - 1, 0, line - 1, 0)] is built
    for the selection before [showTextDocument] is called.  The
    constructor throws on a negative row, that is for a line below 1: the
    document is then not shown.  (A [NaN] row is not negative and does not
    throw; the caller never passes one.) *)
Definition openFileLine (file : jsstring) (line : number) : ui_action :=
  match line with
  | Num z =>
      if (z - 1 <? 0)%Z then OpenTextDocumentOnly file
      else ShowTextDocument file (number_pred line)
  | NaN => ShowTextDocument file (number_pred line)
  end.

(** [relativeTo]: the first workspace folder, or the root. *)
Definition relativeTo (h : host) : jsstring :=
  match workspaceFolders h with
  | Some (folder :: _) => folder
  | _ => js "/"
  end.

(** The three arrays the loop fills. *)
Record parsed : Type := {
  quickPickItems : list QuickPickItem;
  realPaths_of : list jsstring;
  lines_of : list number
}.

(** [let [file, lineStr] = outputLine.trim().split(":")] *)
Definition file_and_lineStr (outputLine : jsstring)
    : jsstring * option jsstring :=
  let parts := split cu_colon (trim outputLine) in
  (nth 0 parts [], nth_error parts 1).

(** [parseInt(lineStr, 10)], replaced by 1 when it is [NaN]. *)
Definition line_number (lineStr : option jsstring) : number :=
  let line := parseInt lineStr in
  if isNaN line then Num 1 else line.

(** One turn of [for (const outputLine of outputLines)] (lines 143-160). *)
Definition parse_line (h : host) (acc : parsed) (outputLine : jsstring)
    : parsed :=
  let '(file, lineStr) := file_and_lineStr outputLine in
  let line := line_number lineStr in
  let lines' := lines_of acc ++ [line] in
  let realPath := path_resolve h (relativeTo h) file in
  let realPaths' := realPaths_of acc ++ [realPath] in
  {| quickPickItems :=
       quickPickItems acc ++
       [{| label := path_relative h (relativeTo h) realPath;
           description := lineStr |}];
     realPaths_of := realPaths';
     lines_of := lines' |}.

Definition parse_output (h : host) (output : jsstring) : parsed :=
  let outputLines := split cu_newline (trim output) in
  fold_left (parse_line h) outputLines
    {| quickPickItems := []; realPaths_of := []; lines_of := [] |}.

(** The callback given to [.then] (lines 128-175): at most one request to
    the editor. *)
Definition then_callback (h : host) (output : jsstring) : list ui_action :=
  let p := parse_output h output in
  if (1 <? List.length (quickPickItems p))%nat then
    [ShowQuickPick (quickPickItems p) (realPaths_of p) (lines_of p)]
  else if (List.length (quickPickItems p) =? 1)%nat then
    match nth_error (realPaths_of p) 0, nth_error (lines_of p) 0 with
    | Some file, Some line => [openFileLine file line]
    | _, _ => []
    end
  else [].

(** The callback of [showQuickPick]: [selected] is the position of the
    item object the user chose ([indexOf] finds it by identity), or nothing
    when the menu was dismissed. *)
Definition quickPick_selected (realPaths : list jsstring)
    (lines : list number) (selected : option nat) : list ui_action :=
  match selected with
  | Some i =>
      match nth_error realPaths i, nth_error lines i with
      | Some file, Some line => [openFileLine file line]
      | _, _ => []
      end
  | None => []
  end.

(** The resolution result in the words of the specification: the lines of
    the trimmed output, each trimmed and split on ":", as pairs of file
    path and line-number string, in the order of the output. *)
Definition resolution_result (output : jsstring)
    : list (jsstring * option jsstring) :=
  map (fun outputLine =>
         let parts := split cu_colon (trim outputLine) in
         (nth 0 parts [], nth_error parts 1))
      (split cu_newline (trim output)).

(** What the loop records for one pair of the resolution result. *)
Definition realPath_of_pair (h : host) (e : jsstring * option jsstring)
    : jsstring :=
  path_resolve h (relativeTo h) (fst e).

Definition item_of_pair (h : host) (e : jsstring * option jsstring)
    : QuickPickItem :=
  {| label := path_relative h (relativeTo h) (realPath_of_pair h e);
     description := snd e |}.

Definition line_of_pair (e : jsstring * option jsstring) : number :=
  line_number (snd e).

(** [pieces.join(sep)], the inverse of [split]. *)
Fixpoint join (sep : code_unit) (pieces : list jsstring) : jsstring :=
  match pieces with
  | [] => []
  | [piece] => piece
  | piece :: pieces' => piece ++ sep :: join sep pieces'
  end.

(* ===================================================================== *)
(** * The resolver process, promises, timers                               *)
(* ===================================================================== *)

Inductive error : Type :=
| NotRunning (target : jsstring)
| TimedOut
| ErroredOut
| ExitedWithCode (code : option Z).

Definition decimal (z : Z) : jsstring := js (NilZero.string_of_int (Z.to_int z)).

(** [error.message] *)
Definition message (e : error) : jsstring :=
  match e with
  | NotRunning target =>
      js "addr2line -e " ++ target ++
      js " not running. Is addr2line installed ? Does " ++ target ++
      js " exist ?"
  | TimedOut => js "addr2line resolution timed out after 5 seconds"
  | ErroredOut => js "addr2line errored out"
  | ExitedWithCode code =>
      js "addr2line exited with code " ++
      match code with Some z => decimal z | None => js "null" end
  end.

Inductive promise : Type :=
| Pending
| Resolved (value : jsstring)
| Rejected (e : error).

(** A promise made by [resolveAddress]; [chained] once [handleTerminalLink]
    has attached its [then] and [catch]. *)
Record pcell : Type := { outcome : promise; chained : bool }.

(** A child is [Running] until it terminates or is killed; its 'close'
    event is emitted later, by the event loop. *)
Inductive status : Type :=
| Running
| Exited (code : option Z)
| Closed.

(** The listeners the code registers on a child process. *)
Inductive listener : Type :=
| ClearHandle                (* start: on 'close', this.process = null *)
| ResolveOnData (pr : nat)   (* resolveAddress: stdout 'data' *)
| RejectOnError (pr : nat)   (* resolveAddress: 'error' *)
| RejectOnClose (pr : nat).  (* resolveAddress: 'close' *)

Record child : Type := {
  command : jsstring;
  args : list jsstring;
  state : status;
  stdin : list jsstring;
  listeners : list listener
}.

(** The callbacks [monitorTarget] registers on the watcher. *)
Inductive wcallback : Type :=
| CallStart (absoluteTarget : jsstring)
| CallStop.

Record watcher : Type := {
  pattern : jsstring;
  onDidChange : list wcallback;
  onDidCreate : list wcallback;
  onDidDelete : list wcallback
}.

(** The two variables of the program ([process] of the [Addr2Line] object,
    [targetWatcher] of [activate]) and what the runtime keeps for it: the
    children spawned so far (a child's position is its identity), the
    promises, the armed timers, the clock in milliseconds, and the requests
    made to the editor. *)
Record world : Type := {
  process : option nat;
  targetWatcher : option watcher;
  children : list child;
  promises : list pcell;
  timers : list (N * nat);
  clock : N;
  ui : list ui_action
}.

Definition init : world :=
  {| process := None; targetWatcher := None; children := []; promises := [];
     timers := []; clock := 0%N; ui := [] |}.

Definition set_process (x : option nat) (w : world) : world :=
  {| process := x; targetWatcher := targetWatcher w; children := children w;
     promises := promises w; timers := timers w; clock := clock w;
     ui := ui w |}.

Definition set_targetWatcher (x : option watcher) (w : world) : world :=
  {| process := process w; targetWatcher := x; children := children w;
     promises := promises w; timers := timers w; clock := clock w;
     ui := ui w |}.

Definition set_children (x : list child) (w : world) : world :=
  {| process := process w; targetWatcher := targetWatcher w; children := x;
     promises := promises w; timers := timers w; clock := clock w;
     ui := ui w |}.

Definition set_promises (x : list pcell) (w : world) : world :=
  {| process := process w; targetWatcher := targetWatcher w;
     children := children w; promises := x; timers := timers w;
     clock := clock w; ui := ui w |}.

Definition set_timers (x : list (N * nat)) (w : world) : world :=
  {| process := process w; targetWatcher := targetWatcher w;
     children := children w; promises := promises w; timers := x;
     clock := clock w; ui := ui w |}.

Definition set_clock (x : N) (w : world) : world :=
  {| process := process w; targetWatcher := targetWatcher w;
     children := children w; promises := promises w; timers := timers w;
     clock := x; ui := ui w |}.

Definition set_ui (x : list ui_action) (w : world) : world :=
  {| process := process w; targetWatcher := targetWatcher w;
     children := children w; promises := promises w; timers := timers w;
     clock := clock w; ui := x |}.

(** Update of the element at a position; nothing happens out of range. *)
Fixpoint update_nth {A : Type} (n : nat) (f : A -> A) (l : list A) : list A :=
  match l, n with
  | [], _ => []
  | x :: l', O => f x :: l'
  | x :: l', S n' => x :: update_nth n' f l'
  end.

Definition with_state (s : status) (c : child) : child :=
  {| command := command c; args := args c; state := s; stdin := stdin c;
     listeners := listeners c |}.

Definition add_listeners (ls : list listener) (c : child) : child :=
  {| command := command c; args := args c; state := state c;
     stdin := stdin c; listeners := listeners c ++ ls |}.

Definition write_stdin (chunk : jsstring) (c : child) : child :=
  {| command := command c; args := args c; state := state c;
     stdin := stdin c ++ [chunk]; listeners := listeners c |}.

(** [child.kill(9)]: a running child is terminated by the signal (its exit
    code is then [null]); a child that is gone is left as it is. *)
Definition kill_child (c : child) : child :=
  match state c with
  | Running => with_state (Exited None) c
  | _ => c
  end.

Definition kill (pid : nat) (w : world) : world :=
  set_children (update_nth pid kill_child (children w)) w.

(** [cp.spawn(command, ["-i", "-e", target])] followed by the
    registration of the 'close' listener of [start]. *)
Definition spawned (h : host) (target : jsstring) : child :=
  {| command := cfg_command h;
     args := [js "-i"; js "-e"; target];
     state := Running;
     stdin := [];
     listeners := [ClearHandle] |}.

(** [Addr2Line.start] (lines 21-31) *)
Definition start (h : host) (target : jsstring) (w : world) : world :=
  let w1 := match process w with
            | Some pid => kill pid w
            | None => w
            end in
  set_process (Some (List.length (children w1)))
    (set_children (children w1 ++ [spawned h target]) w1).

(** [Addr2Line.stop] (lines 34-39) *)
Definition stop (w : world) : world :=
  match process w with
  | Some pid => set_process None (kill pid w)
  | None => w
  end.

(** The reaction of [handleTerminalLink] to a settled promise: the [then]
    callback on the output, or the [catch] callback on the error. *)
Definition reaction (h : host) (o : promise) : list ui_action :=
  match o with
  | Pending => []
  | Resolved output => then_callback h output
  | Rejected e =>
      [ShowErrorMessage (js "Error resolving address: " ++ message e)]
  end.

Definition with_outcome (o : promise) (c : pcell) : pcell :=
  {| outcome := o; chained := chained c |}.

(** [resolve(v)] or [reject(e)] on promise [pr]: only a pending promise
    changes, and its callbacks then run. *)
Definition settle (h : host) (pr : nat) (o : promise) (w : world) : world :=
  match nth_error (promises w) pr with
  | Some {| outcome := Pending; chained := ch |} =>
      let w1 := set_promises (update_nth pr (with_outcome o) (promises w)) w in
      if ch then set_ui (ui w1 ++ reaction h o) w1 else w1
  | _ => w
  end.

(** The timeout of [resolveAddress], in milliseconds. *)
Definition timeout_ms : N := 5000.

(** [Addr2Line.resolveAddress] (lines 42-66): the promise it returns and
    the world it leaves. *)
Definition resolveAddress (h : host) (address : jsstring) (w : world)
    : nat * world :=
  let pr := List.length (promises w) in
  match process w with
  | None =>
      (pr, set_promises
             (promises w ++
              [{| outcome := Rejected (NotRunning (cfg_target h));
                  chained := false |}]) w)
  | Some pid =>
      let w1 := set_promises
                  (promises w ++ [{| outcome := Pending; chained := false |}])
                  w in
      let w2 := set_timers (timers w1 ++ [((clock w1 + timeout_ms)%N, pr)]) w1 in
      let w3 := set_children
                  (update_nth pid
                     (add_listeners
                        [ResolveOnData pr; RejectOnError pr; RejectOnClose pr])
                     (children w2)) w2 in
      (pr, set_children
             (update_nth pid (write_stdin (address ++ [cu_newline]))
                (children w3)) w3)
  end.

(** [.then(...).catch(...)] on promise [pr]: the callbacks are kept for a
    pending promise and run at once on a settled one. *)
Definition chain (h : host) (pr : nat) (w : world) : world :=
  match nth_error (promises w) pr with
  | Some c =>
      let w1 := set_promises
                  (update_nth pr
                     (fun c => {| outcome := outcome c; chained := true |})
                     (promises w)) w in
      set_ui (ui w1 ++ reaction h (outcome c)) w1
  | None => w
  end.

(** [handleTerminalLink] (lines 124-181) *)
Definition handleTerminalLink (h : host) (l : Addr2lineTerminalLink)
    (w : world) : world :=
  let '(pr, w1) := resolveAddress h (link l) w in
  chain h pr w1.

Definition run_wcallback (h : host) (w : world) (cb : wcallback) : world :=
  match cb with
  | CallStart absoluteTarget => start h absoluteTarget w
  | CallStop => stop w
  end.

(** [monitorTarget] (lines 79-102) *)
Definition monitorTarget (h : host) (w : world) : world :=
  let target := cfg_target h in
  let w1 := set_targetWatcher None w in
  match workspaceFolders h with
  | Some (folder :: _) =>
      let absoluteTarget := folder ++ js "/" ++ target in
      let w2 := if existsSync h absoluteTarget
                then start h absoluteTarget w1 else w1 in
      set_targetWatcher
        (Some {| pattern := absoluteTarget;
                 onDidChange := [CallStart absoluteTarget];
                 onDidCreate := [CallStart absoluteTarget];
                 onDidDelete := [CallStop] |}) w2
  | _ => w1
  end.

(** What a listener does when its child emits 'data', 'error', 'close'. *)
Definition on_data (h : host) (data : jsstring) (w : world) (l : listener)
    : world :=
  match l with
  | ResolveOnData pr => settle h pr (Resolved data) w
  | _ => w
  end.

Definition on_error (h : host) (w : world) (l : listener) : world :=
  match l with
  | RejectOnError pr => settle h pr (Rejected ErroredOut) w
  | _ => w
  end.

Definition on_close (h : host) (code : option Z) (w : world) (l : listener)
    : world :=
  match l with
  | ClearHandle => set_process None w
  | RejectOnClose pr => settle h pr (Rejected (ExitedWithCode code)) w
  | _ => w
  end.

(** A timer of [resolveAddress] that is due rejects its promise. *)
Definition on_timer (h : host) (t : N) (w : world) (tm : N * nat) : world :=
  if (fst tm <=? t)%N then settle h (snd tm) (Rejected TimedOut) w else w.

Definition not_due (t : N) (tm : N * nat) : bool := (t <? fst tm)%N.

(** What happens to the extension, one event-loop turn at a time. *)
Inductive event : Type :=
| Start (target : jsstring)
| Stop
| MonitorTarget
| WatchChange
| WatchCreate
| WatchDelete
| HandleLink (l : Addr2lineTerminalLink)
| ChildExit (pid : nat) (code : option Z)
| ChildClose (pid : nat)
| ChildError (pid : nat)
| ChildData (pid : nat) (data : jsstring)
| Tick (t : N).

Definition watch (h : host) (select : watcher -> list wcallback) (w : world)
    : world :=
  match targetWatcher w with
  | Some wt => fold_left (run_wcallback h) (select wt) w
  | None => w
  end.

Definition gone (s : status) : bool :=
  match s with Closed => true | _ => false end.

(** One turn.  An event the runtime cannot deliver (a child that does not
    exist, 'close' of a child that has not terminated, data of a closed
    child) changes nothing. *)
Definition step (h : host) (w : world) (e : event) : world :=
  match e with
  | Start target => start h target w
  | Stop => stop w
  | MonitorTarget => monitorTarget h w
  | WatchChange => watch h onDidChange w
  | WatchCreate => watch h onDidCreate w
  | WatchDelete => watch h onDidDelete w
  | HandleLink l => handleTerminalLink h l w
  | ChildExit pid code =>
      match nth_error (children w) pid with
      | Some {| state := Running |} =>
          set_children (update_nth pid (with_state (Exited code)) (children w)) w
      | _ => w
      end
  | ChildClose pid =>
      match nth_error (children w) pid with
      | Some c =>
          match state c with
          | Exited code =>
              fold_left (on_close h code) (listeners c)
                (set_children (update_nth pid (with_state Closed) (children w)) w)
          | _ => w
          end
      | None => w
      end
  | ChildError pid =>
      match nth_error (children w) pid with
      | Some c =>
          if gone (state c) then w else fold_left (on_error h) (listeners c) w
      | None => w
      end
  | ChildData pid data =>
      match nth_error (children w) pid with
      | Some c =>
          if gone (state c) then w
          else fold_left (on_data h data) (listeners c) w
      | None => w
      end
  | Tick t =>
      fold_left (on_timer h t) (timers w)
        (set_clock (N.max (clock w) t)
           (set_timers (filter (not_due t) (timers w)) w))
  end.

Definition run (h : host) (w : world) (es : list event) : world :=
  fold_left (step h) es w.

(** ** Observations *)

Definition is_running (c : child) : bool :=
  match state c with Running => true | _ => false end.

(** The resolver processes that are alive. *)
Definition live (w : world) : list child := filter is_running (children w).

Definition outcome_of (w : world) (pr : nat) : option promise :=
  option_map outcome (nth_error (promises w) pr).

Definition is_pending (w : world) (pr : nat) : bool :=
  match outcome_of w pr with Some Pending => true | _ => false end.

(** The queries written to a child whose promise is still pending. *)
Definition outstanding (w : world) (c : child) : nat :=
  List.length
    (filter (fun l => match l with
                      | ResolveOnData pr => is_pending w pr
                      | _ => false
                      end) (listeners c)).

Definition stdin_of (w : world) (pid : nat) : option (list jsstring) :=
  option_map stdin (nth_error (children w) pid).

(** The promise a listener settles, if any. *)
Definition listener_target (l : listener) : option nat :=
  match l with
  | ClearHandle => None
  | ResolveOnData pr | RejectOnError pr | RejectOnClose pr => Some pr
  end.

(** An event that can settle a promise waiting on child [pid] with a timer
    due at [deadline]: data, error or close of that child, or the clock
    reaching the deadline. *)
Definition touches (pid : nat) (deadline : N) (e : event) : bool :=
  match e with
  | ChildClose p | ChildError p | ChildData p _ => (p =? pid)%nat
  | Tick t => (deadline <=? t)%N
  | _ => false
  end.

Definition quiet (pid : nat) (deadline : N) (es : list event) : bool :=
  forallb (fun e => negb (touches pid deadline e)) es.

(** The three listeners one call of [resolveAddress] registers. *)
Definition query_listeners (pr : nat) : list listener :=
  [ResolveOnData pr; RejectOnError pr; RejectOnClose pr].

(** The listeners registered, child by child. *)
Definition lsn (w : world) : list (list listener) :=
  map listeners (children w).

Definition targets_below (n : nat) (l : listener) : Prop :=
  match listener_target l with Some q => (q < n)%nat | None => True end.

(** Every listener and every timer names a promise that exists. *)
Definition wf (w : world) : Prop :=
  Forall (Forall (targets_below (List.length (promises w)))) (lsn w)
  /\ Forall (fun tm => (snd tm < List.length (promises w))%nat) (timers w).

Definition clean (pr : nat) (ls : list listener) : Prop :=
  Forall (fun l => listener_target l <> Some pr) ls.

(** Promise [pr] waits on child [pid] with its timer due at [deadline]:
    it is pending, no other child has a listener for it, and its timer is
    armed for that time and no other. *)
Definition waiting (pr pid : nat) (deadline : N) (w : world) : Prop :=
  outcome_of w pr = Some Pending
  /\ (forall p ls, p <> pid -> nth_error (lsn w) p = Some ls -> clean pr ls)
  /\ Forall (fun tm => snd tm = pr -> fst tm = deadline) (timers w)
  /\ In (deadline, pr) (timers w).

(** A host for examples: settings of package.json, one workspace folder,
    the target present, paths joined without normalisation. *)
Definition example_host : host :=
  {| cfg_command := js "addr2line";
     cfg_target := js "vmlinux";
     workspaceFolders := Some [js "/linux"];
     existsSync := fun _ => true;
     path_resolve := fun base file =>
       match file with
       | 47%N :: _ => file
       | _ => base ++ js "/" ++ file
       end;
     path_relative := fun _ path => path |}.

(** The same host before the target has been built. *)
Definition host_without_target : host :=
  {| cfg_command := cfg_command example_host;
     cfg_target := cfg_target example_host;
     workspaceFolders := workspaceFolders example_host;
     existsSync := fun _ => false;
     path_resolve := path_resolve example_host;
     path_relative := path_relative example_host |}.

Definition example_link (address : jsstring) : Addr2lineTerminalLink :=
  {| startIndex := 0; length := List.length address;
     tooltip := link_tooltip (js "vmlinux"); link := address |}.

Definition frame : jsstring := js "__sys_sendmsg+0x284/0x370".

(* ===================================================================== *)
(** * Further notions used by the properties below                         *)
(* ===================================================================== *)

(** Links that follow one another from offset [lo] on without overlap. *)
Fixpoint spaced (lo : nat) (links : list Addr2lineTerminalLink) : Prop :=
  match links with
  | [] => True
  | l :: links' =>
      (lo <= startIndex l)%nat /\ spaced (startIndex l + length l) links'
  end.

Fixpoint spaced_matches (lo : nat) (ms : list regmatch) : Prop :=
  match ms with
  | [] => True
  | m :: ms' =>
      (lo <= index m)%nat
      /\ spaced_matches (index m + List.length (matched m)) ms'
  end.

(** The handle names a child that exists and whose 'close' has not been
    emitted, and every child carries the 'close' listener of [start]. *)
Definition sound (w : world) : Prop :=
  (forall p, process w = Some p ->
     exists c, nth_error (children w) p = Some c /\ gone (state c) = false)
  /\ Forall (fun c => In ClearHandle (listeners c)) (children w).

(** The events the editor and the runtime deliver to the extension;
    [start] and [stop] themselves are only called from [monitorTarget] and
    from the watcher callbacks. *)
Definition delivered (e : event) : bool :=
  match e with
  | Start _ | Stop => false
  | _ => true
  end.

(** No folder is open in the editor. *)
Definition no_workspace (h : host) : Prop :=
  workspaceFolders h = None \/ workspaceFolders h = Some [].

(** What can become of a child while its 'close' has not been emitted:
    it stays as it is, or it was running and has terminated. *)
Definition evolves (c c' : child) : Prop :=
  state c' = state c
  \/ (state c = Running /\ exists code, state c' = Exited code).

(** Listener lists that have only been appended to. *)
Definition grows (before after : list (list listener)) : Prop :=
  forall p ls, nth_error before p = Some ls ->
    exists extra, nth_error after p = Some (ls ++ extra).

(** Every resolver that runs is the one the handle names. *)
Definition held (w : world) : Prop :=
  forall p c, nth_error (children w) p = Some c ->
    is_running c = true -> process w = Some p.

(** Along the trace every 'close' is the close of the child in the handle,
    or comes when the handle is empty: no child closes behind the back of
    a replacement. *)
Fixpoint closes_in_handle (h : host) (w : world) (es : list event) : bool :=
  match es with
  | [] => true
  | e :: es' =>
      match e with
      | ChildClose p =>
          match process w with
          | Some q => (q =? p)%nat
          | None => true
          end
      | _ => true
      end && closes_in_handle h (step h w e) es'
  end.

(* ===================================================================== *)
(** * Properties of the string primitives and of the matcher              *)
(* ===================================================================== *)

(** A loop that pushes one element per turn builds the [map]. *)
Lemma fold_left_push : forall (A B : Type) (f : A -> B) (l : list A) (acc : list B),
  fold_left (fun acc x => acc ++ [f x]) l acc = acc ++ map f l.
Proof.
  intros A B f l; induction l as [|x l IH]; intros acc; simpl.
  - now rewrite app_nil_r.
  - rewrite IH, <- app_assoc. reflexivity.
Qed.

Section Matcher.

Variable r : regex.

Lemma many1_le : forall cs (k : jsstring -> option nat),
  (forall s n, k s = Some n -> (n <= List.length s)%nat) ->
  forall s n, many1 cs k s = Some n -> (n <= List.length s)%nat.
Proof.
  intros cs k Hk s; induction s as [|c s IH]; intros n H; simpl in H.
  - discriminate.
  - destruct (accepts cs c); [|discriminate].
    destruct (many1 cs k s) as [m|] eqn:E.
    + inversion H; subst. specialize (IH m eq_refl). simpl; lia.
    + destruct (k s) as [m|] eqn:E'; simpl in H; [|discriminate].
      inversion H; subst. apply Hk in E'. simpl; lia.
Qed.

End Matcher.

(** A match never runs past the end of the text. *)
Lemma match_here_le : forall r s n,
  match_here r s = Some n -> (n <= List.length s)%nat.
Proof.
  induction r as [|t r IH]; intros s n H; simpl in H.
  - inversion H; lia.
  - destruct t as [cs|cs].
    + destruct s as [|c s]; [discriminate|].
      destruct (accepts cs c); [|discriminate].
      destruct (match_here r s) as [m|] eqn:E; simpl in H; [|discriminate].
      inversion H; subst. apply IH in E. simpl; lia.
    + eapply many1_le; eauto.
Qed.

(** The matcher is sound: what it matches is in the language. *)
Lemma match_here_sound : forall r s n,
  match_here r s = Some n -> in_lang r (firstn n s).
Proof.
  induction r as [|t r IH]; intros s n H; simpl in H.
  - inversion H; subst. constructor.
  - destruct t as [cs|cs].
    + destruct s as [|c s]; [discriminate|].
      destruct (accepts cs c) eqn:A; [|discriminate].
      destruct (match_here r s) as [m|] eqn:E; simpl in H; [|discriminate].
      inversion H; subst. simpl. constructor; auto.
    + revert n H. induction s as [|c s IHs]; intros n H; simpl in H.
      * discriminate.
      * destruct (accepts cs c) eqn:A; [|discriminate].
        destruct (many1 cs (match_here r) s) as [m|] eqn:E.
        -- inversion H; subst. simpl. apply lang_more; auto.
        -- destruct (match_here r s) as [m|] eqn:E'; simpl in H; [|discriminate].
           inversion H; subst. simpl. apply lang_last; auto.
Qed.

(** A code unit the pattern blocks ends every attempt: the matcher gives
    the same answer whatever follows it. *)
Lemma match_here_blocked : forall r c t,
  blocks r c = true ->
  forall s, match_here r (s ++ c :: t) = match_here r s.
Proof.
  induction r as [|tm r IH]; intros c t Hb s; simpl.
  - reflexivity.
  - simpl in Hb. apply andb_true_iff in Hb as [Hc Hr].
    apply negb_true_iff in Hc.
    destruct tm as [cs|cs]; simpl in Hc.
    + destruct s as [|x s]; simpl.
      * now rewrite Hc.
      * now rewrite IH.
    + induction s as [|x s IHs]; simpl.
      * now rewrite Hc.
      * rewrite IHs, IH by assumption. reflexivity.
Qed.

Section Scan.

Variable r : regex.
Hypothesis not_nullable : match_here r [] = None.

Lemma scan_nil : forall i skip, scan r i skip [] = [].
Proof. intros i skip; simpl. rewrite not_nullable. now destruct skip. Qed.

Lemma scan_skip_all : forall s i skip,
  (List.length s <= skip)%nat -> scan r i skip s = [].
Proof.
  induction s as [|c s IH]; intros i skip H.
  - apply scan_nil.
  - simpl in *. destruct skip as [|k]; [lia|]. apply IH; lia.
Qed.

(** A text the pattern matches whole yields that one match. *)
Lemma scan_whole : forall f i,
  match_here r f = Some (List.length f) ->
  scan r i 0 f = [{| index := i; matched := f |}].
Proof.
  intros [|c f] i H.
  - rewrite not_nullable in H; discriminate.
  - cbn [scan]. rewrite H. rewrite firstn_all.
    rewrite scan_skip_all by (simpl; lia). reflexivity.
Qed.

(** Scanning splits at a blocked code unit. *)
Lemma scan_app_blocked : forall c rest, blocks r c = true ->
  forall pre i skip, (skip <= List.length pre)%nat ->
  scan r i skip (pre ++ c :: rest) =
  scan r i skip pre ++ scan r (i + List.length pre + 1) 0 rest.
Proof.
  intros c rest Hb; induction pre as [|x pre IH]; intros i skip Hs.
  - simpl in Hs. assert (skip = 0)%nat by lia; subst.
    rewrite scan_nil. cbn [app scan].
    pose proof (match_here_blocked r c rest Hb []) as E0. cbn [app] in E0.
    rewrite E0, not_nullable.
    cbn [List.length]. replace (i + 0 + 1)%nat with (S i) by lia. reflexivity.
  - cbn [app scan List.length]. destruct skip as [|k].
    + change (x :: pre ++ c :: rest) with ((x :: pre) ++ c :: rest).
      rewrite (match_here_blocked r c rest Hb (x :: pre)).
      destruct (match_here r (x :: pre)) as [n|] eqn:E.
      * pose proof (match_here_le _ _ _ E) as Hle. simpl in Hle.
        rewrite firstn_app.
        replace (n - List.length (x :: pre))%nat with 0%nat by (simpl; lia).
        rewrite firstn_O, app_nil_r.
        rewrite IH by lia. cbn [app].
        replace (S i + List.length pre + 1)%nat
          with (i + S (List.length pre) + 1)%nat by lia.
        reflexivity.
      * rewrite IH by lia.
        replace (S i + List.length pre + 1)%nat
          with (i + S (List.length pre) + 1)%nat by lia.
        reflexivity.
    + simpl in Hs. rewrite IH by lia.
      replace (S i + List.length pre + 1)%nat
        with (i + S (List.length pre) + 1)%nat by lia.
      reflexivity.
Qed.

(** A frame between blocked code units is one of the matches. *)
Lemma scan_frame : forall pre f post,
  match_here r f = Some (List.length f) ->
  ends_blocked r pre -> starts_blocked r post ->
  In {| index := List.length pre; matched := f |}
     (scan r 0 0 (pre ++ f ++ post)).
Proof.
  intros pre f post Hf Hpre Hpost.
  assert (Hin : forall j, In {| index := j; matched := f |}
                           (scan r j 0 (f ++ post))).
  { intros j. destruct Hpost as [->|(c & q & -> & Hc)].
    - rewrite app_nil_r, scan_whole by assumption. now left.
    - rewrite scan_app_blocked by (assumption || lia).
      rewrite scan_whole by assumption. now left. }
  destruct Hpre as [->|(p & c & -> & Hc)].
  - apply Hin.
  - rewrite <- app_assoc. cbn [app].
    rewrite scan_app_blocked by (assumption || lia).
    apply in_or_app; right.
    rewrite length_app. cbn [List.length].
    replace (0 + List.length p + 1)%nat with (List.length p + 1)%nat by lia.
    apply Hin.
Qed.

End Scan.

(** Every match lies in the line at its index, and is what the matcher
    found there. *)
Lemma scan_located : forall r s i skip m,
  In m (scan r i skip s) ->
  exists a b, s = a ++ matched m ++ b /\ index m = (i + List.length a)%nat
              /\ in_lang r (matched m).
Proof.
  intros r; induction s as [|c s IH]; intros i skip m H.
  - simpl in H. destruct skip; [|contradiction].
    destruct (match_here r []) eqn:E; [|contradiction].
    destruct H as [<-|[]]. exists [], []. simpl. repeat split; [lia|].
    apply match_here_sound in E. now rewrite firstn_nil in E.
  - cbn [scan] in H. destruct skip as [|k].
    + destruct (match_here r (c :: s)) as [n|] eqn:E.
      * destruct H as [<-|H].
        -- exists [], (skipn n (c :: s)). cbn [app index matched List.length].
           repeat split.
           ++ now rewrite firstn_skipn.
           ++ lia.
           ++ now apply match_here_sound.
        -- apply IH in H as (a & b & -> & Hi & Hl).
           exists (c :: a), b. simpl. repeat split; auto; lia.
      * apply IH in H as (a & b & -> & Hi & Hl).
        exists (c :: a), b. simpl. repeat split; auto; lia.
    + apply IH in H as (a & b & -> & Hi & Hl).
      exists (c :: a), b. simpl. repeat split; auto; lia.
Qed.

Lemma provideTerminalLinks_map : forall target line,
  provideTerminalLinks target line =
  map (link_of_match target) (matchAll frame_regex line).
Proof.
  intros. unfold provideTerminalLinks.
  change (push_link target)
    with (fun acc m => acc ++ [link_of_match target m]).
  now rewrite fold_left_push.
Qed.

(** C1: [provideTerminalLinks] returns one link per match of the pattern
    on the line, in the order of the matches; each link carries the offset
    of its match, the length of the matched text, the tooltip and the
    matched text, which is in the language of the pattern and is the text
    of the line at that offset; and a frame that stands between blocked
    code units (or the ends of the line), such as
    [__sys_sendmsg+0x284/0x370] between spaces, yields a link whose text
    is that frame. *)
Theorem provideTerminalLinks_one_link_per_match : forall target line,
  let links := provideTerminalLinks target line in
  links = map (link_of_match target) (matchAll frame_regex line)
  /\ List.length links = List.length (matchAll frame_regex line)
  /\ Forall (fun l =>
       in_lang frame_regex (link l)
       /\ length l = List.length (link l)
       /\ firstn (length l) (skipn (startIndex l) line) = link l
       /\ tooltip l = link_tooltip target) links
  /\ (forall pre f post,
       line = pre ++ f ++ post ->
       match_here frame_regex f = Some (List.length f) ->
       ends_blocked frame_regex pre -> starts_blocked frame_regex post ->
       In {| startIndex := List.length pre; length := List.length f;
             tooltip := link_tooltip target; link := f |} links).
Proof.
  intros target line links. subst links.
  rewrite provideTerminalLinks_map. repeat split.
  - now rewrite length_map.
  - apply Forall_forall. intros l Hl.
    apply in_map_iff in Hl as (m & <- & Hm).
    apply scan_located in Hm as (a & b & Hline & Hi & Hlang).
    cbn [link length startIndex tooltip link_of_match].
    repeat split; auto.
    rewrite Hi, Hline. simpl.
    rewrite skipn_app, skipn_all, Nat.sub_diag. simpl.
    rewrite firstn_app, firstn_all, Nat.sub_diag. simpl.
    now rewrite app_nil_r.
  - intros pre f post -> Hf Hpre Hpost.
    apply in_map_iff.
    exists {| index := List.length pre; matched := f |}. split; [reflexivity|].
    apply scan_frame; auto.
Qed.

Lemma provideTerminalLinks_one_link_per_match_witness :
  In {| startIndex := List.length (js " ? ");
        length := List.length frame;
        tooltip := link_tooltip (js "vmlinux");
        link := frame |}
     (provideTerminalLinks (js "vmlinux")
        (js " ? " ++ frame ++ js " net/socket.c")).
Proof.
  pose proof (provideTerminalLinks_one_link_per_match (js "vmlinux")
                (js " ? " ++ frame ++ js " net/socket.c")) as (_ & _ & _ & H).
  apply (H (js " ? ") frame (js " net/socket.c")).
  - reflexivity.
  - vm_compute. reflexivity.
  - right. exists (js " ?"), cu_space. split; vm_compute; reflexivity.
  - right. exists cu_space, (js "net/socket.c"). split; vm_compute; reflexivity.
Defined.

(* ===================================================================== *)
(** * [trim], [split], [parseInt]                                         *)
(* ===================================================================== *)

Lemma split_not_nil : forall sep s, split sep s <> [].
Proof.
  intros sep [|c s]; simpl; [discriminate|].
  destruct (c =? sep)%N; [discriminate|].
  destruct (split sep s); discriminate.
Qed.

(** The pieces, joined by the separator, give the string back. *)
Lemma join_split : forall sep s, join sep (split sep s) = s.
Proof.
  intros sep; induction s as [|c s IH]; simpl; [reflexivity|].
  destruct (c =? sep)%N eqn:E.
  - apply N.eqb_eq in E; subst.
    destruct (split sep s) as [|p ps] eqn:Es; [now apply split_not_nil in Es|].
    simpl in *. now rewrite IH.
  - destruct (split sep s) as [|p ps] eqn:Es; [now apply split_not_nil in Es|].
    simpl in *. destruct ps; simpl in *; now rewrite <- IH.
Qed.

(** No piece holds the separator. *)
Lemma split_pieces : forall sep s,
  Forall (fun piece => ~ In sep piece) (split sep s).
Proof.
  intros sep; induction s as [|c s IH]; simpl.
  - constructor; auto.
  - destruct (c =? sep)%N eqn:E.
    + constructor; auto.
    + destruct (split sep s) as [|p ps] eqn:Es.
      * constructor; auto. intros [->|[]]. now rewrite N.eqb_refl in E.
      * inversion IH; subst. constructor; auto.
        intros [->|Hin]; [now rewrite N.eqb_refl in E|auto].
Qed.

Lemma split_no_sep : forall sep s, ~ In sep s -> split sep s = [s].
Proof.
  intros sep; induction s as [|c s IH]; intros H; simpl; [reflexivity|].
  destruct (c =? sep)%N eqn:E.
  - apply N.eqb_eq in E; subst. exfalso; apply H; now left.
  - rewrite IH; [reflexivity|]. intros Hin; apply H; now right.
Qed.

Lemma split_app_sep : forall sep a b,
  ~ In sep a -> split sep (a ++ sep :: b) = a :: split sep b.
Proof.
  intros sep; induction a as [|c a IH]; intros b H; simpl.
  - now rewrite N.eqb_refl.
  - destruct (c =? sep)%N eqn:E.
    + apply N.eqb_eq in E; subst. exfalso; apply H; now left.
    + rewrite IH; [reflexivity|]. intros Hin; apply H; now right.
Qed.

(** The first piece is the string itself or is followed by the separator. *)
Lemma split_head : forall sep s,
  exists piece pieces, split sep s = piece :: pieces
    /\ (s = piece \/ exists tl, s = piece ++ sep :: tl).
Proof.
  intros sep s. pose proof (join_split sep s) as J.
  destruct (split sep s) as [|p ps] eqn:E; [now apply split_not_nil in E|].
  exists p, ps. split; [reflexivity|].
  destruct ps as [|q qs]; simpl in J; [now left|right; eauto].
Qed.

Lemma trimStart_decomp : forall s,
  exists ws, s = ws ++ trimStart s /\ Forall (fun c => is_white c = true) ws.
Proof.
  induction s as [|c s (ws & E & F)]; simpl.
  - exists []; auto.
  - destruct (is_white c) eqn:W.
    + exists (c :: ws). split; [simpl; congruence|auto].
    + exists []; auto.
Qed.

Lemma trimEnd_decomp : forall s,
  exists ws, s = trimEnd s ++ ws /\ Forall (fun c => is_white c = true) ws.
Proof.
  intros s. destruct (trimStart_decomp (rev s)) as (ws & E & F).
  exists (rev ws). split.
  - unfold trimEnd. rewrite <- rev_app_distr, <- E. symmetry; apply rev_involutive.
  - now apply Forall_rev.
Qed.

Lemma trimStart_app : forall a b,
  trimStart (a ++ b) =
  match trimStart a with [] => trimStart b | t => t ++ b end.
Proof.
  induction a as [|c a IH]; intros b; simpl; [reflexivity|].
  destruct (is_white c); [apply IH|reflexivity].
Qed.

Lemma trimStart_white : forall ws,
  Forall (fun c => is_white c = true) ws -> trimStart ws = [].
Proof. induction 1 as [|c ws W _ IH]; simpl; [|rewrite W]; auto. Qed.

Lemma trimStart_stop : forall a c b,
  is_white c = false -> trimStart (a ++ c :: b) = trimStart a ++ c :: b.
Proof.
  induction a as [|x a IH]; intros c b W; simpl.
  - now rewrite W.
  - destruct (is_white x); [now apply IH|reflexivity].
Qed.

Lemma trimEnd_stop : forall a c b,
  is_white c = false -> trimEnd (a ++ c :: b) = a ++ c :: trimEnd b.
Proof.
  intros a c b W. unfold trimEnd.
  rewrite rev_app_distr. simpl. rewrite <- app_assoc. simpl.
  rewrite trimStart_stop by assumption.
  rewrite rev_app_distr. simpl. rewrite rev_involutive, <- app_assoc.
  reflexivity.
Qed.

Lemma trim_stop : forall a c b,
  is_white c = false -> trim (a ++ c :: b) = trimStart a ++ c :: trimEnd b.
Proof.
  intros a c b W. unfold trim.
  rewrite trimStart_stop by assumption. now apply trimEnd_stop.
Qed.

Lemma in_trimStart : forall c s, In c (trimStart s) -> In c s.
Proof.
  intros c s H. destruct (trimStart_decomp s) as (ws & E & _).
  rewrite E. apply in_or_app; now right.
Qed.


Lemma white_not_digit : forall c, is_white c = true -> is_digit c = false.
Proof.
  intros c W. unfold is_digit. apply andb_false_iff.
  destruct (N.leb_spec 48 c) as [L|L]; [right|now left].
  apply N.leb_gt. unfold is_white in W.
  repeat (apply orb_true_iff in W as [W|W]);
    repeat match goal with
    | H : (_ && _)%bool = true |- _ => apply andb_true_iff in H as [? ?]
    | H : (_ <=? _)%N = true |- _ => apply N.leb_le in H
    | H : (_ =? _)%N = true |- _ => apply N.eqb_eq in H
    end; lia.
Qed.

Lemma digits_app_stop : forall a b acc read,
  stops b -> digits acc read (a ++ b) = digits acc read a.
Proof.
  induction a as [|x a IH]; intros b acc read Hb; simpl.
  - destruct b as [|c b]; simpl in *; [reflexivity|now rewrite Hb].
  - destruct (is_digit x); [now apply IH|reflexivity].
Qed.

(** [parseInt] does not look behind the number: a tail that holds no
    number of its own and does not start with a digit changes nothing. *)
Lemma parseInt_app_stop : forall a b,
  stops b -> parseInt_string b = NaN ->
  parseInt_string (a ++ b) = parseInt_string a.
Proof.
  intros a b Hs Hb. unfold parseInt_string.
  rewrite trimStart_app.
  destruct (trimStart a) as [|x a'] eqn:E.
  - exact Hb.
  - cbn [app].
    destruct (x =? cu_minus)%N; [|destruct (x =? cu_plus)%N].
    + now rewrite digits_app_stop.
    + now rewrite digits_app_stop.
    + change (x :: a' ++ b) with ((x :: a') ++ b). now rewrite digits_app_stop.
Qed.

Lemma parseInt_colon_tail : forall a tl,
  parseInt_string (a ++ cu_colon :: tl) = parseInt_string a.
Proof. intros; apply parseInt_app_stop; reflexivity. Qed.

Lemma parseInt_white_tail : forall a ws,
  Forall (fun c => is_white c = true) ws ->
  parseInt_string (a ++ ws) = parseInt_string a.
Proof.
  intros a ws F. apply parseInt_app_stop.
  - destruct F as [|c ws W _]; simpl; [exact I|now apply white_not_digit].
  - unfold parseInt_string. now rewrite trimStart_white.
Qed.

Lemma parseInt_trimEnd : forall s,
  parseInt_string (trimEnd s) = parseInt_string s.
Proof.
  intros s. destruct (trimEnd_decomp s) as (ws & E & F).
  rewrite E at 2. symmetry. now apply parseInt_white_tail.
Qed.

(** The line-number string of an output line with a colon: [parseInt]
    reads from it what it would read from all that follows the first
    colon. *)
Lemma lineStr_of_line : forall f rest,
  ~ In cu_colon f ->
  exists lineStr,
    file_and_lineStr (f ++ cu_colon :: rest) = (trimStart f, Some lineStr)
    /\ parseInt_string lineStr = parseInt_string rest.
Proof.
  intros f rest Hf. unfold file_and_lineStr.
  rewrite trim_stop by reflexivity.
  rewrite split_app_sep by (intros H; apply Hf; now apply in_trimStart).
  destruct (split_head cu_colon (trimEnd rest)) as (p & ps & E & Hp).
  rewrite E. exists p. split; [reflexivity|].
  rewrite <- (parseInt_trimEnd rest).
  destruct Hp as [->|(tl & ->)]; [reflexivity|].
  symmetry; apply parseInt_colon_tail.
Qed.


(* ===================================================================== *)
(** * The parser of [handleTerminalLink]                                   *)
(* ===================================================================== *)

Lemma parse_loop : forall h ls acc,
  fold_left (parse_line h) ls acc =
  {| quickPickItems :=
       quickPickItems acc ++ map (item_of_pair h) (map file_and_lineStr ls);
     realPaths_of :=
       realPaths_of acc ++ map (realPath_of_pair h) (map file_and_lineStr ls);
     lines_of := lines_of acc ++ map line_of_pair (map file_and_lineStr ls) |}.
Proof.
  intros h; induction ls as [|l ls IH]; intros acc; simpl.
  - rewrite !app_nil_r. now destruct acc.
  - rewrite IH. unfold parse_line.
    destruct (file_and_lineStr l) as [file lineStr] eqn:E. simpl.
    rewrite <- !app_assoc. reflexivity.
Qed.

Lemma parse_output_map : forall h output,
  parse_output h output =
  {| quickPickItems := map (item_of_pair h) (resolution_result output);
     realPaths_of := map (realPath_of_pair h) (resolution_result output);
     lines_of := map line_of_pair (resolution_result output) |}.
Proof. intros. unfold parse_output. now rewrite parse_loop. Qed.

Lemma Forall2_map_spec : forall (A B : Type) (f : A -> B) (P : A -> B -> Prop),
  (forall x, P x (f x)) -> forall l, Forall2 P l (map f l).
Proof. intros A B f P H; induction l; simpl; constructor; auto. Qed.


(** C3: the output is parsed by splitting only.  The lines are the pieces
    of the trimmed output between newlines (joined by newlines they give
    the trimmed output back, and none holds a newline); to each line, in
    order, corresponds one pair: the first and the second piece of the
    trimmed line between colons; and the three arrays the loop fills hold,
    in that same order, what is recorded for each pair. *)
Theorem parse_output_is_splitting : forall h output,
  let outputLines := split cu_newline (trim output) in
  let pairs := resolution_result output in
  let p := parse_output h output in
  join cu_newline outputLines = trim output
  /\ Forall (fun l => ~ In cu_newline l) outputLines
  /\ Forall2 (fun l e =>
       let parts := split cu_colon (trim l) in
       join cu_colon parts = trim l
       /\ Forall (fun piece => ~ In cu_colon piece) parts
       /\ nth_error parts 0 = Some (fst e)
       /\ nth_error parts 1 = snd e) outputLines pairs
  /\ quickPickItems p = map (item_of_pair h) pairs
  /\ realPaths_of p = map (realPath_of_pair h) pairs
  /\ lines_of p = map line_of_pair pairs
  /\ map description (quickPickItems p) = map snd pairs.
Proof.
  intros h output outputLines pairs p. subst outputLines pairs p.
  rewrite parse_output_map. cbn [quickPickItems realPaths_of lines_of].
  repeat split.
  - apply join_split.
  - apply split_pieces.
  - unfold resolution_result. apply Forall2_map_spec. intros l.
    cbn [fst snd]. repeat split.
    + apply join_split.
    + apply split_pieces.
    + destruct (split cu_colon (trim l)) eqn:E;
        [now apply split_not_nil in E|reflexivity].
  - rewrite map_map. reflexivity.
Qed.

Lemma then_callback_single : forall h output e,
  resolution_result output = [e] ->
  then_callback h output =
  [openFileLine (realPath_of_pair h e) (line_of_pair e)].
Proof.
  intros h output e E. unfold then_callback.
  rewrite parse_output_map, E. reflexivity.
Qed.

Lemma then_callback_many : forall h output e1 e2 rest,
  resolution_result output = e1 :: e2 :: rest ->
  then_callback h output =
  [ShowQuickPick (map (item_of_pair h) (e1 :: e2 :: rest))
                 (map (realPath_of_pair h) (e1 :: e2 :: rest))
                 (map line_of_pair (e1 :: e2 :: rest))].
Proof.
  intros h output e1 e2 rest E. unfold then_callback.
  rewrite parse_output_map, E. reflexivity.
Qed.

Lemma resolution_result_one_line : forall output l,
  split cu_newline (trim output) = [l] ->
  resolution_result output = [file_and_lineStr l].
Proof. intros output l E. unfold resolution_result. now rewrite E. Qed.

Lemma openFileLine_shows : forall file z,
  (1 <= z)%Z -> openFileLine file (Num z) = ShowTextDocument file (Num (z - 1)).
Proof.
  intros file z H. unfold openFileLine.
  destruct (Z.ltb_spec (z - 1) 0); [lia|reflexivity].
Qed.

Lemma openFileLine_throws : forall file z,
  (z <= 0)%Z -> openFileLine file (Num z) = OpenTextDocumentOnly file.
Proof.
  intros file z H. unfold openFileLine.
  destruct (Z.ltb_spec (z - 1) 0); [reflexivity|lia].
Qed.

Lemma line_number_Num : forall lineStr, exists z, line_number lineStr = Num z.
Proof.
  intros lineStr. unfold line_number.
  destruct (parseInt lineStr) as [|z]; simpl; eauto.
Qed.




(** An item chosen in the menu opens the file of the pair at that place. *)
Lemma quickPick_selected_opens : forall h pairs i e,
  nth_error pairs i = Some e ->
  quickPick_selected (map (realPath_of_pair h) pairs)
    (map line_of_pair pairs) (Some i) =
  [openFileLine (realPath_of_pair h e) (line_of_pair e)].
Proof.
  intros h pairs i e H. unfold quickPick_selected.
  rewrite !nth_error_map, H. reflexivity.
Qed.

(** The line recorded is never [NaN]. *)
Lemma line_number_not_NaN : forall lineStr, isNaN (line_number lineStr) = false.
Proof.
  intros lineStr. unfold line_number.
  destruct (parseInt lineStr) eqn:E; reflexivity.
Qed.

(** The line recorded for a line with a colon is decided by what follows
    the first colon. *)
Lemma line_number_of_line : forall f rest,
  ~ In cu_colon f ->
  line_number (snd (file_and_lineStr (f ++ cu_colon :: rest))) =
  if isNaN (parseInt_string rest) then Num 1 else parseInt_string rest.
Proof.
  intros f rest Hf.
  destruct (lineStr_of_line f rest Hf) as (lineStr & -> & <-).
  reflexivity.
Qed.



(* ===================================================================== *)
(** * The process wrapper                                                  *)
(* ===================================================================== *)

Lemma nth_error_update_nth_eq : forall (A : Type) (f : A -> A) l n,
  nth_error (update_nth n f l) n = option_map f (nth_error l n).
Proof.
  intros A f; induction l as [|x l IH]; intros [|n]; simpl; auto.
Qed.

Lemma nth_error_update_nth_neq : forall (A : Type) (f : A -> A) l n m,
  m <> n -> nth_error (update_nth n f l) m = nth_error l m.
Proof.
  intros A f; induction l as [|x l IH]; intros [|n] [|m] H; simpl; auto;
    try congruence.
Qed.

Lemma length_update_nth : forall (A : Type) (f : A -> A) l n,
  List.length (update_nth n f l) = List.length l.
Proof.
  intros A f; induction l as [|x l IH]; intros [|n]; simpl; auto.
Qed.

Lemma nth_error_snoc : forall (A : Type) (l : list A) x,
  nth_error (l ++ [x]) (List.length l) = Some x.
Proof.
  intros. rewrite nth_error_app2, Nat.sub_diag by lia. reflexivity.
Qed.

(** What [start] leaves: the handle names a new child, running the
    configured command on the target; the child held before is no longer
    running; the watcher is untouched. *)
Lemma start_spec : forall h target w,
  let w' := start h target w in
  process w' = Some (List.length (children w))
  /\ nth_error (children w') (List.length (children w)) = Some (spawned h target)
  /\ List.length (children w') = S (List.length (children w))
  /\ targetWatcher w' = targetWatcher w
  /\ (forall pid c, process w = Some pid ->
        nth_error (children w) pid = Some c ->
        option_map is_running (nth_error (children w') pid) = Some false).
Proof.
  intros h target w. unfold start.
  destruct (process w) as [pid|] eqn:P; cbn.
  - rewrite !length_update_nth. repeat split.
    + rewrite <- (length_update_nth _ kill_child (children w) pid).
      apply nth_error_snoc.
    + rewrite length_app, length_update_nth. simpl; lia.
    + intros pid' c E Hc. inversion E; subst pid'.
      assert (Hlt : (pid < List.length (children w))%nat)
        by (apply nth_error_Some; rewrite Hc; discriminate).
      rewrite nth_error_app1 by now rewrite length_update_nth.
      rewrite nth_error_update_nth_eq, Hc. simpl.
      unfold kill_child, is_running.
      destruct (state c) eqn:S; simpl; rewrite ?S; reflexivity.
  - repeat split.
    + apply nth_error_snoc.
    + rewrite length_app. simpl; lia.
    + discriminate.
Qed.

(** What [stop] leaves: no handle, and the child held before is no longer
    running. *)
Lemma stop_spec : forall w,
  process (stop w) = None
  /\ targetWatcher (stop w) = targetWatcher w
  /\ (forall pid c, process w = Some pid ->
        nth_error (children w) pid = Some c ->
        option_map is_running (nth_error (children (stop w)) pid) = Some false).
Proof.
  intros w. unfold stop. destruct (process w) as [pid|] eqn:P; cbn.
  - repeat split. intros pid' c E Hc. inversion E; subst pid'.
    rewrite nth_error_update_nth_eq, Hc. simpl.
    unfold kill_child, is_running.
      destruct (state c) eqn:S; simpl; rewrite ?S; reflexivity.
  - repeat split; auto. discriminate.
Qed.

(** C9: a call without a resolver is rejected at once with the "not
    running" error, and nothing else changes: no child is written to, no
    listener and no timer is added; through [handleTerminalLink] the error
    is shown.  A call with a resolver writes the address and a newline to
    the stdin of the child the handle names, and to no other, and returns a
    pending promise. *)
Theorem resolveAddress_rejects_or_writes : forall h address w,
  let pr := fst (resolveAddress h address w) in
  let w' := snd (resolveAddress h address w) in
  (process w = None ->
     outcome_of w' pr = Some (Rejected (NotRunning (cfg_target h)))
     /\ children w' = children w
     /\ timers w' = timers w
     /\ forall l, ui (handleTerminalLink h l w) =
          ui w ++ [ShowErrorMessage
                     (js "Error resolving address: " ++
                      message (NotRunning (cfg_target h)))])
  /\ (forall pid c, process w = Some pid ->
        nth_error (children w) pid = Some c ->
        outcome_of w' pr = Some Pending
        /\ stdin_of w' pid = Some (stdin c ++ [address ++ [cu_newline]])
        /\ forall other, other <> pid -> stdin_of w' other = stdin_of w other).
Proof.
  intros h address w pr w'. subst pr w'. unfold resolveAddress. split.
  - intros P. rewrite P. cbn [fst snd]. repeat split.
    + unfold outcome_of. cbn [promises set_promises].
      now rewrite nth_error_snoc.
    + intros l. unfold handleTerminalLink, resolveAddress. rewrite P.
      unfold chain. cbn [promises set_promises].
      rewrite nth_error_snoc. reflexivity.
  - intros pid c P Hc. rewrite P. cbn [fst snd]. repeat split.
    + unfold outcome_of. cbn. now rewrite nth_error_snoc.
    + unfold stdin_of. cbn.
      rewrite !nth_error_update_nth_eq, Hc. reflexivity.
    + intros other Ho. unfold stdin_of. cbn.
      now rewrite !nth_error_update_nth_neq by assumption.
Qed.

Lemma resolveAddress_rejects_or_writes_witness :
  stdin_of
    (snd (resolveAddress example_host frame
            (start example_host (js "/linux/vmlinux") init))) 0 =
  Some [frame ++ [cu_newline]].
Proof.
  apply (resolveAddress_rejects_or_writes example_host frame
           (start example_host (js "/linux/vmlinux") init)) with
    (c := spawned example_host (js "/linux/vmlinux")); reflexivity.
Defined.

(** C5: once [monitorTarget] has run in a workspace, a change or create
    notification of the watcher runs [start] on the watched target, which
    leaves a new running resolver for that target in the handle and the
    former one terminated, and a delete notification runs [stop], which
    leaves no handle. *)
Theorem watcher_restarts_resolver : forall h h' w folder folders,
  workspaceFolders h = Some (folder :: folders) ->
  let absoluteTarget := folder ++ js "/" ++ cfg_target h in
  let w1 := monitorTarget h w in
  step h' w1 WatchChange = start h' absoluteTarget w1
  /\ step h' w1 WatchCreate = start h' absoluteTarget w1
  /\ step h' w1 WatchDelete = stop w1
  /\ process (start h' absoluteTarget w1) = Some (List.length (children w1))
  /\ nth_error (children (start h' absoluteTarget w1))
       (List.length (children w1)) =
     Some {| command := cfg_command h';
             args := [js "-i"; js "-e"; absoluteTarget];
             state := Running; stdin := [];
             listeners := [ClearHandle] |}
  /\ (forall pid c, process w1 = Some pid ->
        nth_error (children w1) pid = Some c ->
        option_map is_running
          (nth_error (children (start h' absoluteTarget w1)) pid) = Some false)
  /\ process (stop w1) = None.
Proof.
  intros h h' w folder folders F absoluteTarget w1.
  assert (W : targetWatcher w1 =
              Some {| pattern := absoluteTarget;
                      onDidChange := [CallStart absoluteTarget];
                      onDidCreate := [CallStart absoluteTarget];
                      onDidDelete := [CallStop] |}).
  { subst w1. unfold monitorTarget. rewrite F. reflexivity. }
  pose proof (start_spec h' absoluteTarget w1) as (S1 & S2 & _ & _ & S5).
  repeat split; auto.
  - cbn [step]. unfold watch. now rewrite W.
  - cbn [step]. unfold watch. now rewrite W.
  - cbn [step]. unfold watch. now rewrite W.
  - apply stop_spec.
Qed.

Lemma watcher_restarts_resolver_witness :
  let w1 := monitorTarget example_host init in
  process w1 = Some 0%nat
  /\ process (step example_host w1 WatchChange) = Some 1%nat
  /\ step example_host w1 WatchChange =
     start example_host (js "/linux/vmlinux") w1.
Proof.
  intros w1. split; [reflexivity|]. split; [reflexivity|].
  apply (watcher_restarts_resolver example_host example_host init
           (js "/linux") []).
  reflexivity.
Defined.

(** C4: the trace on which the code keeps two resolvers alive.  The
    first child is replaced by a second; the 'close' event of the first,
    delivered after [start] has returned, runs the listener that clears
    the handle, which by then names the second child; the next [start]
    finds no handle, kills nothing and spawns a third child next to the
    second. *)
Theorem stale_close_leaves_two_resolvers :
  let t := js "/linux/vmlinux" in
  let w3 := run example_host init [Start t; Start t; ChildClose 0] in
  let w4 := step example_host w3 (Start t) in
  map state (children w3) = [Closed; Running]
  /\ process w3 = None
  /\ map state (children w4) = [Closed; Running; Running]
  /\ process w4 = Some 2%nat
  /\ List.length (live w4) = 2%nat.
Proof. repeat split. Qed.

(* ===================================================================== *)
(** * What persists between two turns                                      *)
(* ===================================================================== *)

Lemma fold_left_inv : forall (A B : Type) (P : A -> Prop) (f : A -> B -> A),
  (forall a b, P a -> P (f a b)) ->
  forall l a, P a -> P (fold_left f l a).
Proof. intros A B P f H; induction l; simpl; auto. Qed.

(** Settling a promise touches the promises and the requests to the
    editor only. *)
Lemma settle_frame : forall h pr o w,
  process (settle h pr o w) = process w
  /\ targetWatcher (settle h pr o w) = targetWatcher w
  /\ children (settle h pr o w) = children w
  /\ timers (settle h pr o w) = timers w
  /\ clock (settle h pr o w) = clock w
  /\ List.length (promises (settle h pr o w)) = List.length (promises w).
Proof.
  intros h pr o w. unfold settle.
  destruct (nth_error (promises w) pr) as [[[| |] [|]]|]; cbn;
    rewrite ?length_update_nth; auto 10.
Qed.

Lemma start_watcher : forall h t w,
  targetWatcher (start h t w) = targetWatcher w.
Proof. intros. apply start_spec. Qed.

Lemma stop_watcher : forall w, targetWatcher (stop w) = targetWatcher w.
Proof. intros. apply stop_spec. Qed.

Lemma watch_watcher : forall h select w,
  targetWatcher (watch h select w) = targetWatcher w.
Proof.
  intros h select w. unfold watch.
  destruct (targetWatcher w) as [wt|] eqn:E; [|assumption].
  rewrite <- E.
  apply (fold_left_inv _ _ (fun a => targetWatcher a = targetWatcher w)); auto.
  intros a [t|] Ha; cbn [run_wcallback].
  - now rewrite start_watcher.
  - now rewrite stop_watcher.
Qed.

Lemma handleTerminalLink_frame : forall h l w,
  process (handleTerminalLink h l w) = process w
  /\ targetWatcher (handleTerminalLink h l w) = targetWatcher w.
Proof.
  intros h l w. unfold handleTerminalLink, resolveAddress, chain.
  destruct (process w) as [pid|] eqn:P; cbn [promises set_promises set_timers
    set_children];
    match goal with
    | |- context [nth_error ?x ?n] => destruct (nth_error x n)
    end; cbn; auto.
Qed.

(** C8, as the code has it: the program keeps two variables between turns,
    the handle and the watcher.  Only [monitorTarget] changes the watcher;
    handling a link, the exit, error and data events of a child and the
    timers change neither variable. *)
Theorem program_variables_frame : forall h w e,
  (e <> MonitorTarget -> targetWatcher (step h w e) = targetWatcher w)
  /\ match e with
     | HandleLink _ | ChildExit _ _ | ChildError _ | ChildData _ _ | Tick _ =>
         process (step h w e) = process w
     | _ => True
     end.
Proof.
  intros h w e. split.
  - intros Hne. destruct e; cbn [step];
      try apply start_watcher; try apply stop_watcher;
      try apply watch_watcher; try congruence.
    + apply handleTerminalLink_frame.
    + destruct (nth_error (children w) pid) as [[? ? [| |] ? ?]|]; reflexivity.
    + destruct (nth_error (children w) pid) as [c|]; [|reflexivity].
      destruct (state c); try reflexivity.
      apply (fold_left_inv _ _ (fun a => targetWatcher a = targetWatcher w));
        [|reflexivity].
      intros a [| | |] Ha; simpl; auto;
        now rewrite (proj1 (proj2 (settle_frame _ _ _ _))).
    + destruct (nth_error (children w) pid) as [c|]; [|reflexivity].
      destruct (gone (state c)); [reflexivity|].
      apply (fold_left_inv _ _ (fun a => targetWatcher a = targetWatcher w));
        [|reflexivity].
      intros a [| | |] Ha; simpl; auto;
        now rewrite (proj1 (proj2 (settle_frame _ _ _ _))).
    + destruct (nth_error (children w) pid) as [c|]; [|reflexivity].
      destruct (gone (state c)); [reflexivity|].
      apply (fold_left_inv _ _ (fun a => targetWatcher a = targetWatcher w));
        [|reflexivity].
      intros a [| | |] Ha; simpl; auto;
        now rewrite (proj1 (proj2 (settle_frame _ _ _ _))).
    + apply (fold_left_inv _ _ (fun a => targetWatcher a = targetWatcher w));
        [|reflexivity].
      intros a tm Ha. unfold on_timer. destruct (fst tm <=? t)%N; auto.
      now rewrite (proj1 (proj2 (settle_frame _ _ _ _))).
  - destruct e; cbn [step]; auto.
    + apply handleTerminalLink_frame.
    + destruct (nth_error (children w) pid) as [[? ? [| |] ? ?]|]; reflexivity.
    + destruct (nth_error (children w) pid) as [c|]; [|reflexivity].
      destruct (gone (state c)); [reflexivity|].
      apply (fold_left_inv _ _ (fun a => process a = process w)); [|reflexivity].
      intros a [| | |] Ha; simpl; auto;
        now rewrite (proj1 (settle_frame _ _ _ _)).
    + destruct (nth_error (children w) pid) as [c|]; [|reflexivity].
      destruct (gone (state c)); [reflexivity|].
      apply (fold_left_inv _ _ (fun a => process a = process w)); [|reflexivity].
      intros a [| | |] Ha; simpl; auto;
        now rewrite (proj1 (settle_frame _ _ _ _)).
    + apply (fold_left_inv _ _ (fun a => process a = process w)); [|reflexivity].
      intros a tm Ha. unfold on_timer. destruct (fst tm <=? t)%N; auto.
      now rewrite (proj1 (settle_frame _ _ _ _)).
Qed.

Lemma program_variables_frame_witness :
  targetWatcher (step example_host (monitorTarget example_host init)
                   WatchChange) =
  targetWatcher (monitorTarget example_host init).
Proof.
  apply (program_variables_frame example_host
           (monitorTarget example_host init) WatchChange).
  discriminate.
Defined.

(** C8, as the specification has it, fails: [monitorTarget] leaves a
    watcher behind that was not there, with the handle as it was, and the
    next notification acts on a world with the watcher and not on one
    without. *)
Lemma watcher_is_kept_between_turns :
  let h := host_without_target in
  let w := step h init MonitorTarget in
  process w = process init
  /\ targetWatcher w <> targetWatcher init
  /\ process (step h w WatchChange) <> process (step h init WatchChange).
Proof. repeat split; discriminate. Qed.

(* ===================================================================== *)
(** * Promises, listeners and timers                                       *)
(* ===================================================================== *)

Lemma fold_left_inv_in : forall (A B : Type) (P : A -> Prop) (f : A -> B -> A) l,
  (forall a b, In b l -> P a -> P (f a b)) ->
  forall a, P a -> P (fold_left f l a).
Proof.
  intros A B P f; induction l as [|b l IH]; intros H a Ha; simpl; auto.
  apply IH.
  - intros a' b' Hin. apply H. now right.
  - apply H; [now left|assumption].
Qed.

Lemma map_update_nth_same : forall (A B : Type) (g : A -> B) (f : A -> A),
  (forall x, g (f x) = g x) ->
  forall l n, map g (update_nth n f l) = map g l.
Proof.
  intros A B g f H; induction l as [|x l IH]; intros [|n]; simpl; auto.
  - now rewrite H.
  - now rewrite IH.
Qed.

Lemma map_update_nth : forall (A B : Type) (g : A -> B) (f : A -> A) (f' : B -> B),
  (forall x, g (f x) = f' (g x)) ->
  forall l n, map g (update_nth n f l) = update_nth n f' (map g l).
Proof.
  intros A B g f f' H; induction l as [|x l IH]; intros [|n]; simpl; auto.
  - now rewrite H.
  - now rewrite IH.
Qed.

Lemma nth_error_update_nth : forall (A : Type) (f : A -> A) l n m y,
  nth_error (update_nth n f l) m = Some y ->
  exists x, nth_error l m = Some x /\ (y = x \/ (m = n /\ y = f x)).
Proof.
  intros A f l n m y H. destruct (Nat.eq_dec m n) as [->|Hne].
  - rewrite nth_error_update_nth_eq in H.
    destruct (nth_error l n) as [x|]; [|discriminate].
    inversion H; subst. eauto.
  - rewrite nth_error_update_nth_neq in H by assumption. eauto.
Qed.

Lemma Forall_update_nth : forall (A : Type) (P : A -> Prop) (f : A -> A),
  (forall x, P x -> P (f x)) ->
  forall l n, Forall P l -> Forall P (update_nth n f l).
Proof.
  intros A P f H; induction l as [|x l IH]; intros [|n] F; simpl; auto;
    inversion F; subst; constructor; auto.
Qed.

(** ** Outcomes under [settle] *)

Lemma settle_outcome_other : forall h q o w pr,
  q <> pr -> outcome_of (settle h q o w) pr = outcome_of w pr.
Proof.
  intros h q o w pr Hne. unfold settle, outcome_of.
  destruct (nth_error (promises w) q) as [[[| |] [|]]|]; cbn;
    rewrite ?nth_error_update_nth_neq by congruence; reflexivity.
Qed.

Lemma settle_outcome_pending : forall h pr o w,
  outcome_of w pr = Some Pending -> outcome_of (settle h pr o w) pr = Some o.
Proof.
  intros h pr o w H. unfold settle, outcome_of in *.
  destruct (nth_error (promises w) pr) as [[[| |] [|]]|] eqn:E; cbn in *;
    try discriminate;
    rewrite nth_error_update_nth_eq, E; reflexivity.
Qed.

Lemma settle_outcome_settled : forall h pr o w x,
  outcome_of w pr = Some x -> x <> Pending -> settle h pr o w = w.
Proof.
  intros h pr o w x H Hx. unfold settle, outcome_of in *.
  destruct (nth_error (promises w) pr) as [[[| |] ch]|]; cbn in *;
    try reflexivity.
  inversion H; subst; congruence.
Qed.

(** A promise is pending forever or settles once. *)
Lemma settle_outcome_cases : forall h q o w pr,
  outcome_of (settle h q o w) pr = outcome_of w pr
  \/ (q = pr /\ outcome_of w pr = Some Pending
      /\ outcome_of (settle h q o w) pr = Some o).
Proof.
  intros h q o w pr. destruct (Nat.eq_dec q pr) as [->|Hne].
  - destruct (outcome_of w pr) as [[| |]|] eqn:E.
    + right. repeat split; auto. now apply settle_outcome_pending.
    + left. erewrite settle_outcome_settled; eauto; discriminate.
    + left. erewrite settle_outcome_settled; eauto; discriminate.
    + left. unfold settle. unfold outcome_of in E.
      destruct (nth_error (promises w) pr) eqn:E2; [discriminate|].
      unfold outcome_of. now rewrite E2.
  - left. now apply settle_outcome_other.
Qed.

(** A loop of handlers, one of which settles a pending [pr] with [o] while
    the others leave it or do the same, leaves [pr] settled with [o]. *)
Lemma fold_settles : forall (B : Type) (f : world -> B -> world) o pr b0,
  o <> Pending ->
  (forall w b, outcome_of (f w b) pr = outcome_of w pr
               \/ (outcome_of w pr = Some Pending
                   /\ outcome_of (f w b) pr = Some o)) ->
  (forall w, outcome_of w pr = Some Pending ->
             outcome_of (f w b0) pr = Some o) ->
  forall l w, In b0 l ->
    outcome_of w pr = Some Pending \/ outcome_of w pr = Some o ->
    outcome_of (fold_left f l w) pr = Some o.
Proof.
  intros B f o pr b0 Ho Hstep Hb0.
  assert (Keep : forall l w, outcome_of w pr = Some o ->
                             outcome_of (fold_left f l w) pr = Some o).
  { induction l as [|b l IH]; intros w Hw; simpl; auto.
    apply IH. destruct (Hstep w b) as [E|[E _]]; congruence. }
  induction l as [|b l IH]; intros w Hin Hw; simpl.
  - destruct Hin.
  - destruct Hin as [->|Hin].
    + apply Keep. destruct Hw as [Hw|Hw]; auto.
      destruct (Hstep w b0) as [E|[E _]]; congruence.
    + apply IH; auto.
      destruct (Hstep w b) as [E|[E1 E2]]; [rewrite E|]; auto.
Qed.

Lemma on_data_cases : forall h data w l pr,
  outcome_of (on_data h data w l) pr = outcome_of w pr
  \/ (outcome_of w pr = Some Pending
      /\ outcome_of (on_data h data w l) pr = Some (Resolved data)).
Proof.
  intros h data w [|q|q|q] pr; simpl; auto.
  destruct (settle_outcome_cases h q (Resolved data) w pr) as [E|(_ & E1 & E2)];
    auto.
Qed.

Lemma on_timer_cases : forall h t w tm pr,
  outcome_of (on_timer h t w tm) pr = outcome_of w pr
  \/ (outcome_of w pr = Some Pending
      /\ outcome_of (on_timer h t w tm) pr = Some (Rejected TimedOut)).
Proof.
  intros h t w tm pr. unfold on_timer. destruct (fst tm <=? t)%N; auto.
  destruct (settle_outcome_cases h (snd tm) (Rejected TimedOut) w pr)
    as [E|(_ & E1 & E2)]; auto.
Qed.

(** ** [resolveAddress] with a resolver *)

Lemma update_nth_compose : forall (A : Type) (f g : A -> A) l n,
  update_nth n g (update_nth n f l) = update_nth n (fun x => g (f x)) l.
Proof.
  intros A f g; induction l as [|x l IH]; intros [|n]; simpl; auto.
  now rewrite IH.
Qed.

Lemma resolveAddress_live : forall h address w pid,
  process w = Some pid ->
  let pr := List.length (promises w) in
  resolveAddress h address w =
  (pr,
   {| process := Some pid;
      targetWatcher := targetWatcher w;
      children :=
        update_nth pid
          (fun c => write_stdin (address ++ [cu_newline])
                      (add_listeners (query_listeners pr) c))
          (children w);
      promises := promises w ++ [{| outcome := Pending; chained := false |}];
      timers := timers w ++ [((clock w + timeout_ms)%N, pr)];
      clock := clock w;
      ui := ui w |}).
Proof.
  intros h address w pid P pr. unfold resolveAddress. rewrite P.
  unfold set_children, set_timers, set_promises; cbn.
  rewrite update_nth_compose, P. reflexivity.
Qed.

(** C7, as the code has it: nothing is queued.  Two calls in a row on a
    resolver write both queries to its stdin, the second right behind the
    first, while both promises are pending; the first chunk of output then
    resolves both with that chunk. *)
Theorem queries_are_written_at_once : forall h w a1 a2 pid c,
  process w = Some pid ->
  nth_error (children w) pid = Some c ->
  let r1 := resolveAddress h a1 w in
  let r2 := resolveAddress h a2 (snd r1) in
  let w2 := snd r2 in
  fst r1 <> fst r2
  /\ stdin_of w2 pid =
     Some (stdin c ++ [a1 ++ [cu_newline]; a2 ++ [cu_newline]])
  /\ outcome_of w2 (fst r1) = Some Pending
  /\ outcome_of w2 (fst r2) = Some Pending
  /\ forall data, gone (state c) = false ->
       let w3 := step h w2 (ChildData pid data) in
       outcome_of w3 (fst r1) = Some (Resolved data)
       /\ outcome_of w3 (fst r2) = Some (Resolved data).
Proof.
  intros h w a1 a2 pid c P Hc r1 r2 w2. subst w2 r2 r1.
  rewrite (resolveAddress_live h a1 w pid P). cbn [fst snd].
  rewrite (resolveAddress_live h a2 _ pid) by reflexivity.
  cbn [fst snd promises children timers clock ui targetWatcher].
  rewrite update_nth_compose, length_app. cbn [List.length].
  set (pr1 := List.length (promises w)).
  replace (pr1 + 1)%nat with (S pr1) by lia.
  assert (O1 : forall x y, nth_error ((promises w ++ [x]) ++ [y]) pr1 = Some x).
  { intros x y. rewrite nth_error_app1 by (rewrite length_app; simpl; lia).
    apply nth_error_snoc. }
  assert (O2 : forall x y, nth_error ((promises w ++ [x]) ++ [y]) (S pr1) = Some y).
  { intros x y. replace (S pr1) with (List.length (promises w ++ [x]))
      by (rewrite length_app; simpl; lia).
    apply nth_error_snoc. }
  split; [lia|]. split.
  { unfold stdin_of. cbn [children].
    rewrite nth_error_update_nth_eq, Hc. cbn. now rewrite <- app_assoc. }
  split; [unfold outcome_of; cbn [promises]; now rewrite O1|].
  split; [unfold outcome_of; cbn [promises]; now rewrite O2|].
  intros data G. cbn [step children].
  rewrite nth_error_update_nth_eq, Hc. cbn [option_map state write_stdin
    add_listeners listeners]. rewrite G.
  split.
  - apply fold_settles with (b0 := ResolveOnData pr1).
    + discriminate.
    + intros; apply on_data_cases.
    + intros w0 H0. simpl. now apply settle_outcome_pending.
    + apply in_or_app; left. apply in_or_app; right. now left.
    + left. unfold outcome_of; cbn [promises]; now rewrite O1.
  - apply fold_settles with (b0 := ResolveOnData (S pr1)).
    + discriminate.
    + intros; apply on_data_cases.
    + intros w0 H0. simpl. now apply settle_outcome_pending.
    + apply in_or_app; right. now left.
    + left. unfold outcome_of; cbn [promises]; now rewrite O2.
Qed.

Lemma queries_are_written_at_once_witness :
  let w := start example_host (js "/linux/vmlinux") init in
  let r1 := resolveAddress example_host (js "a+0x1/0x2") w in
  let r2 := resolveAddress example_host (js "b+0x3/0x4") (snd r1) in
  stdin_of (snd r2) 0 =
    Some [js "a+0x1/0x2" ++ [cu_newline]; js "b+0x3/0x4" ++ [cu_newline]]
  /\ outcome_of (snd r2) (fst r1) = Some Pending.
Proof.
  intros w r1 r2.
  pose proof (queries_are_written_at_once example_host w
                (js "a+0x1/0x2") (js "b+0x3/0x4") 0
                (spawned example_host (js "/linux/vmlinux"))
                eq_refl eq_refl) as (_ & H2 & H3 & _).
  split; [exact H2|exact H3].
Defined.

(** C7, as the specification has it, fails: after two clicks in a row the
    resolver has been sent both queries although the promise of the first
    is pending, and two queries are outstanding on it. *)
Lemma second_query_does_not_wait :
  let w := run example_host init
             [MonitorTarget; HandleLink (example_link (js "a+0x1/0x2"));
              HandleLink (example_link (js "b+0x3/0x4"))] in
  stdin_of w 0 =
    Some [js "a+0x1/0x2" ++ [cu_newline]; js "b+0x3/0x4" ++ [cu_newline]]
  /\ outcome_of w 0 = Some Pending
  /\ option_map (outstanding w) (nth_error (children w) 0) = Some 2%nat.
Proof. repeat split. Qed.

(* ===================================================================== *)
(** * Listeners and timers name promises that exist                        *)
(* ===================================================================== *)

Lemma targets_below_mono : forall n m l,
  (n <= m)%nat -> targets_below n l -> targets_below m l.
Proof.
  intros n m l H. unfold targets_below.
  destruct (listener_target l); auto. lia.
Qed.

Lemma query_listeners_below : forall pr n,
  (pr < n)%nat -> Forall (targets_below n) (query_listeners pr).
Proof. intros pr n H. repeat constructor; exact H. Qed.

Lemma lsn_kill : forall pid w, lsn (kill pid w) = lsn w.
Proof.
  intros pid w. unfold lsn, kill. cbn [children set_children].
  apply map_update_nth_same. intros c. unfold kill_child.
  destruct (state c); reflexivity.
Qed.

Lemma lsn_with_state : forall pid st w,
  lsn (set_children (update_nth pid (with_state st) (children w)) w) = lsn w.
Proof.
  intros pid st w. unfold lsn. cbn [children set_children].
  now apply map_update_nth_same.
Qed.

Lemma start_view : forall h t w,
  lsn (start h t w) = lsn w ++ [[ClearHandle]]
  /\ promises (start h t w) = promises w
  /\ timers (start h t w) = timers w.
Proof.
  intros h t w. unfold start.
  destruct (process w) as [pid|]; unfold lsn; cbn;
    rewrite map_app; repeat split.
  f_equal. apply (lsn_kill pid w).
Qed.

Lemma stop_view : forall w,
  lsn (stop w) = lsn w
  /\ promises (stop w) = promises w
  /\ timers (stop w) = timers w.
Proof.
  intros w. unfold stop. destruct (process w) as [pid|]; repeat split.
  apply (lsn_kill pid w).
Qed.

Lemma settle_view : forall h q o w,
  lsn (settle h q o w) = lsn w
  /\ timers (settle h q o w) = timers w
  /\ List.length (promises (settle h q o w)) = List.length (promises w).
Proof.
  intros h q o w. destruct (settle_frame h q o w) as (_ & _ & C & T & _ & L).
  unfold lsn. now rewrite C.
Qed.

Lemma lsn_resolveAddress_live : forall h address w pid,
  process w = Some pid ->
  lsn (snd (resolveAddress h address w)) =
  update_nth pid
    (fun ls => ls ++ query_listeners (List.length (promises w))) (lsn w).
Proof.
  intros h address w pid P. rewrite (resolveAddress_live h address w pid P).
  unfold lsn. cbn [snd children]. now apply map_update_nth.
Qed.

Lemma handleTerminalLink_chain : forall h l w,
  handleTerminalLink h l w =
  chain h (fst (resolveAddress h (link l) w))
          (snd (resolveAddress h (link l) w)).
Proof.
  intros. unfold handleTerminalLink.
  now destruct (resolveAddress h (link l) w).
Qed.

Lemma chain_frame : forall h q w,
  children (chain h q w) = children w
  /\ timers (chain h q w) = timers w
  /\ List.length (promises (chain h q w)) = List.length (promises w).
Proof.
  intros h q w. unfold chain.
  destruct (nth_error (promises w) q); cbn; rewrite ?length_update_nth; auto.
Qed.

Lemma chain_outcome : forall h q w pr,
  outcome_of (chain h q w) pr = outcome_of w pr.
Proof.
  intros h q w pr. unfold chain.
  destruct (nth_error (promises w) q) as [c|] eqn:E; [|reflexivity].
  unfold outcome_of. cbn [promises set_promises set_ui].
  destruct (Nat.eq_dec pr q) as [->|Hne].
  - rewrite nth_error_update_nth_eq, E. reflexivity.
  - now rewrite nth_error_update_nth_neq.
Qed.

Lemma wf_ext : forall w w',
  lsn w' = lsn w -> timers w' = timers w ->
  List.length (promises w') = List.length (promises w) ->
  wf w -> wf w'.
Proof. intros w w' L T P. unfold wf. now rewrite L, T, P. Qed.

Lemma wf_grow : forall n m ls tms,
  (n <= m)%nat ->
  Forall (Forall (targets_below n)) ls
  /\ Forall (fun tm : N * nat => (snd tm < n)%nat) tms ->
  Forall (Forall (targets_below m)) ls
  /\ Forall (fun tm : N * nat => (snd tm < m)%nat) tms.
Proof.
  intros n m ls tms H [A B]. split.
  - eapply Forall_impl; [|exact A]. intros l Hl.
    eapply Forall_impl; [|exact Hl]. intros x. now apply targets_below_mono.
  - eapply Forall_impl; [|exact B]. simpl. intros; lia.
Qed.

Lemma wf_start : forall h t w, wf w -> wf (start h t w).
Proof.
  intros h t w [A B]. destruct (start_view h t w) as (L & P & T).
  unfold wf. rewrite L, P, T. split; auto.
  apply Forall_app. split; auto. repeat constructor.
Qed.

Lemma wf_stop : forall w, wf w -> wf (stop w).
Proof.
  intros w. destruct (stop_view w) as (L & P & T).
  apply wf_ext; auto. now rewrite P.
Qed.

Lemma wf_settle : forall h q o w, wf w -> wf (settle h q o w).
Proof.
  intros h q o w. destruct (settle_view h q o w) as (L & T & P).
  now apply wf_ext.
Qed.

Lemma wf_resolveAddress : forall h address w,
  wf w -> wf (snd (resolveAddress h address w)).
Proof.
  intros h address w H. destruct (process w) as [pid|] eqn:P.
  - unfold wf. rewrite (lsn_resolveAddress_live h address w pid P).
    rewrite (resolveAddress_live h address w pid P). cbn [snd promises timers].
    rewrite length_app. cbn [List.length].
    destruct (wf_grow (List.length (promises w))
                (List.length (promises w) + 1) (lsn w) (timers w)
                ltac:(lia) H) as [A B].
    split.
    + apply Forall_update_nth; auto. intros ls Hls.
      apply Forall_app; split; auto. apply query_listeners_below; lia.
    + apply Forall_app; split; auto. repeat constructor. simpl; lia.
  - unfold resolveAddress. rewrite P. unfold wf, lsn.
    cbn [snd promises timers children set_promises].
    rewrite length_app. cbn [List.length].
    apply (wf_grow (List.length (promises w))); [lia|exact H].
Qed.

Lemma wf_handleTerminalLink : forall h l w,
  wf w -> wf (handleTerminalLink h l w).
Proof.
  intros h l w H. rewrite handleTerminalLink_chain.
  apply wf_resolveAddress with (h := h) (address := link l) in H.
  destruct (chain_frame h (fst (resolveAddress h (link l) w))
              (snd (resolveAddress h (link l) w))) as (C & T & P).
  revert H. apply wf_ext; auto. unfold lsn. now rewrite C.
Qed.

Lemma wf_watch : forall h select w, wf w -> wf (watch h select w).
Proof.
  intros h select w H. unfold watch.
  destruct (targetWatcher w) as [wt|]; auto.
  apply (fold_left_inv _ _ wf); auto.
  intros a [t|] Ha; cbn [run_wcallback]; [now apply wf_start|now apply wf_stop].
Qed.

Lemma wf_monitorTarget : forall h w, wf w -> wf (monitorTarget h w).
Proof.
  intros h w H. unfold monitorTarget.
  destruct (workspaceFolders h) as [[|folder folders]|]; try exact H.
  destruct (existsSync h (folder ++ js "/" ++ cfg_target h)).
  - apply (wf_start h (folder ++ js "/" ++ cfg_target h)
             (set_targetWatcher None w)). exact H.
  - exact H.
Qed.

(** Every turn keeps the registrations well formed. *)
Lemma wf_step : forall h w e, wf w -> wf (step h w e).
Proof.
  intros h w e H. destruct e; cbn [step].
  - now apply wf_start.
  - now apply wf_stop.
  - now apply wf_monitorTarget.
  - now apply wf_watch.
  - now apply wf_watch.
  - now apply wf_watch.
  - now apply wf_handleTerminalLink.
  - destruct (nth_error (children w) pid) as [[? ? [| |] ? ?]|]; auto.
    revert H. apply wf_ext; auto. apply lsn_with_state.
  - destruct (nth_error (children w) pid) as [c|]; auto.
    destruct (state c); auto.
    apply (fold_left_inv _ _ wf).
    + intros a [|q|q|q] Ha; cbn [on_close]; auto. now apply wf_settle.
    + revert H. apply wf_ext; auto. apply lsn_with_state.
  - destruct (nth_error (children w) pid) as [c|]; auto.
    destruct (gone (state c)); auto.
    apply (fold_left_inv _ _ wf); auto.
    intros a [|q|q|q] Ha; cbn [on_error]; auto. now apply wf_settle.
  - destruct (nth_error (children w) pid) as [c|]; auto.
    destruct (gone (state c)); auto.
    apply (fold_left_inv _ _ wf); auto.
    intros a [|q|q|q] Ha; cbn [on_data]; auto. now apply wf_settle.
  - apply (fold_left_inv _ _ wf).
    + intros a tm Ha. unfold on_timer. destruct (fst tm <=? t)%N; auto.
      now apply wf_settle.
    + destruct H as [A B]. split; [exact A|].
      cbn [timers set_clock set_timers promises].
      apply Forall_forall. intros tm Hin. apply filter_In in Hin as [Hin _].
      revert tm Hin. now apply Forall_forall.
Qed.

Lemma wf_init : wf init.
Proof. split; constructor. Qed.

Lemma wf_run : forall h es w, wf w -> wf (run h w es).
Proof.
  intros h; induction es as [|e es IH]; intros w H; simpl; auto.
  apply IH. now apply wf_step.
Qed.

(* ===================================================================== *)
(** * A request that nothing answers                                       *)
(* ===================================================================== *)

Section Waiting.

Variable h : host.
Variables pr pid : nat.
Variable deadline : N.

Abbreviation waits := (waiting pr pid deadline).

Lemma waiting_ext : forall w w',
  lsn w' = lsn w -> timers w' = timers w ->
  outcome_of w' pr = outcome_of w pr ->
  waits w -> waits w'.
Proof. intros w w' L T O. unfold waiting. now rewrite L, T, O. Qed.

Lemma waiting_exists : forall w,
  waits w -> (pr < List.length (promises w))%nat.
Proof.
  intros w (O & _). unfold outcome_of in O. apply nth_error_Some.
  destruct (nth_error (promises w) pr); discriminate.
Qed.

Lemma waiting_start : forall t w, waits w -> waits (start h t w).
Proof.
  intros t w (O & C & T & I). destruct (start_view h t w) as (L & P & Tm).
  unfold waiting, outcome_of. rewrite L, P, Tm. repeat split; auto.
  intros p ls Hp Hls.
  destruct (Nat.lt_ge_cases p (List.length (lsn w))) as [Hlt|Hge].
  - rewrite nth_error_app1 in Hls by assumption. eauto.
  - rewrite nth_error_app2 in Hls by assumption.
    destruct (p - List.length (lsn w))%nat as [|k]; simpl in Hls.
    + inversion Hls; subst. repeat constructor. discriminate.
    + destruct k; discriminate.
Qed.

Lemma waiting_stop : forall w, waits w -> waits (stop w).
Proof.
  intros w. destruct (stop_view w) as (L & P & Tm).
  apply waiting_ext; auto. unfold outcome_of. now rewrite P.
Qed.

Lemma waiting_settle : forall q o w,
  q <> pr -> waits w -> waits (settle h q o w).
Proof.
  intros q o w Hq. destruct (settle_view h q o w) as (L & T & _).
  apply waiting_ext; auto. now apply settle_outcome_other.
Qed.

Lemma waiting_watch : forall select w, waits w -> waits (watch h select w).
Proof.
  intros select w H. unfold watch.
  destruct (targetWatcher w) as [wt|]; auto.
  apply (fold_left_inv _ _ waits); auto.
  intros a [t|] Ha; cbn [run_wcallback];
    [now apply waiting_start|now apply waiting_stop].
Qed.

Lemma waiting_monitorTarget : forall w, waits w -> waits (monitorTarget h w).
Proof.
  intros w H. unfold monitorTarget.
  destruct (workspaceFolders h) as [[|folder folders]|]; try exact H.
  destruct (existsSync h (folder ++ js "/" ++ cfg_target h)).
  - apply (waiting_start (folder ++ js "/" ++ cfg_target h)
             (set_targetWatcher None w)). exact H.
  - exact H.
Qed.

Lemma waiting_resolveAddress : forall address w,
  waits w -> waits (snd (resolveAddress h address w)).
Proof.
  intros address w H. pose proof (waiting_exists w H) as Hlt.
  destruct H as (O & C & T & I).
  assert (O' : forall x, outcome_of (set_promises (promises w ++ [x]) w) pr
                         = Some Pending).
  { intros x. unfold outcome_of in *. cbn [promises set_promises].
    now rewrite nth_error_app1. }
  destruct (process w) as [p0|] eqn:P.
  - unfold waiting. rewrite (lsn_resolveAddress_live h address w p0 P).
    rewrite (resolveAddress_live h address w p0 P). cbn [snd timers].
    repeat split.
    + apply (O' {| outcome := Pending; chained := false |}).
    + intros p ls Hp Hls.
      apply nth_error_update_nth in Hls as (x & Hx & [->|[_ ->]]); eauto.
      apply Forall_app; split; [exact (C p x Hp Hx)|].
      unfold query_listeners.
      repeat constructor; simpl; intros E; inversion E; lia.
    + apply Forall_app; split; auto.
      repeat constructor. simpl. intros; lia.
    + apply in_or_app; now left.
  - unfold resolveAddress. rewrite P. cbn [snd].
    repeat split; auto; apply O'.
Qed.

Lemma waiting_handleTerminalLink : forall l w,
  waits w -> waits (handleTerminalLink h l w).
Proof.
  intros l w H. rewrite handleTerminalLink_chain.
  apply waiting_resolveAddress with (address := link l) in H.
  destruct (chain_frame h (fst (resolveAddress h (link l) w))
              (snd (resolveAddress h (link l) w))) as (C & T & _).
  revert H. apply waiting_ext; auto.
  - unfold lsn. now rewrite C.
  - apply chain_outcome.
Qed.

(** The listeners of another child do not concern the promise. *)
Lemma waiting_listeners : forall w p c,
  waits w -> p <> pid -> nth_error (children w) p = Some c ->
  clean pr (listeners c).
Proof.
  intros w p c (_ & C & _) Hp Hc. apply (C p); auto.
  unfold lsn. now rewrite nth_error_map, Hc.
Qed.

Lemma waiting_fold_listeners :
  forall (f : world -> listener -> world) ls w,
  (forall a l q, listener_target l = Some q -> q <> pr ->
                 waits a -> waits (f a l)) ->
  (forall a, waits a -> waits (f a ClearHandle)) ->
  clean pr ls -> waits w -> waits (fold_left f ls w).
Proof.
  intros f ls w Hq Hc Hls Hw.
  apply (fold_left_inv_in _ _ waits); auto.
  intros a l Hin Ha.
  pose proof (proj1 (Forall_forall _ _) Hls l Hin) as Hl.
  destruct l as [|q|q|q]; auto;
    apply (Hq a _ q); auto; simpl in Hl; congruence.
Qed.

(** An event that does not touch the request leaves it waiting. *)
Lemma waiting_step : forall w e,
  touches pid deadline e = false -> waits w -> waits (step h w e).
Proof.
  intros w e Ht H. destruct e; cbn [step].
  - now apply waiting_start.
  - now apply waiting_stop.
  - now apply waiting_monitorTarget.
  - now apply waiting_watch.
  - now apply waiting_watch.
  - now apply waiting_watch.
  - now apply waiting_handleTerminalLink.
  - destruct (nth_error (children w) pid0) as [[? ? [| |] ? ?]|]; auto.
    revert H. apply waiting_ext; auto. apply lsn_with_state.
  - simpl in Ht. apply Nat.eqb_neq in Ht.
    destruct (nth_error (children w) pid0) as [c|] eqn:Hc; auto.
    destruct (state c); auto.
    apply waiting_fold_listeners.
    + intros a [|q'|q'|q'] q Hl Hq Ha; cbn [on_close]; auto.
      simpl in Hl. inversion Hl; subst. now apply waiting_settle.
    + intros a Ha. exact Ha.
    + eapply waiting_listeners; eauto.
    + revert H. apply waiting_ext; auto. apply lsn_with_state.
  - simpl in Ht. apply Nat.eqb_neq in Ht.
    destruct (nth_error (children w) pid0) as [c|] eqn:Hc; auto.
    destruct (gone (state c)); auto.
    apply waiting_fold_listeners; auto.
    + intros a [|q'|q'|q'] q Hl Hq Ha; cbn [on_error]; auto.
      simpl in Hl. inversion Hl; subst. now apply waiting_settle.
    + eapply waiting_listeners; eauto.
  - simpl in Ht. apply Nat.eqb_neq in Ht.
    destruct (nth_error (children w) pid0) as [c|] eqn:Hc; auto.
    destruct (gone (state c)); auto.
    apply waiting_fold_listeners; auto.
    + intros a [|q'|q'|q'] q Hl Hq Ha; cbn [on_data]; auto.
      simpl in Hl. inversion Hl; subst. now apply waiting_settle.
    + eapply waiting_listeners; eauto.
  - simpl in Ht. apply N.leb_gt in Ht.
    pose proof H as (O & C & T & I).
    apply (fold_left_inv_in _ _ waits).
    + intros a tm Hin Ha. unfold on_timer.
      destruct (N.leb_spec (fst tm) t) as [Hle|Hgt]; auto.
      apply waiting_settle; auto. intros E.
      pose proof (proj1 (Forall_forall _ _) T tm Hin E). lia.
    + unfold waiting, lsn, outcome_of.
      cbn [children promises timers set_clock set_timers].
      repeat split; auto.
      * apply Forall_forall. intros tm Hin.
        apply filter_In in Hin as [Hin _].
        exact (proj1 (Forall_forall _ _) T tm Hin).
      * apply filter_In. split; auto. unfold not_due. simpl.
        now apply N.ltb_lt.
Qed.

Lemma waiting_run : forall es w,
  quiet pid deadline es = true -> waits w -> waits (run h w es).
Proof.
  induction es as [|e es IH]; intros w Hq Hw; simpl; auto.
  simpl in Hq. apply andb_true_iff in Hq as [He Hes].
  apply negb_true_iff in He. apply IH; auto. now apply waiting_step.
Qed.

(** When the clock reaches the deadline the waiting promise is rejected
    with the timeout error. *)
Lemma waiting_times_out : forall w t,
  (deadline <= t)%N -> waits w ->
  outcome_of (step h w (Tick t)) pr = Some (Rejected TimedOut).
Proof.
  intros w t Ht (O & _ & _ & I). cbn [step].
  apply fold_settles with (b0 := (deadline, pr)); auto.
  - discriminate.
  - intros; apply on_timer_cases.
  - intros a Ha. unfold on_timer. simpl.
    destruct (N.leb_spec deadline t) as [_|Hgt]; [|lia].
    now apply settle_outcome_pending.
Qed.

End Waiting.

(** A link handled on a resolver leaves its promise waiting on that child
    with the timer due five seconds later. *)
Lemma handleTerminalLink_waits : forall h l w pid,
  wf w -> process w = Some pid ->
  waiting (List.length (promises w)) pid (clock w + timeout_ms)
    (handleTerminalLink h l w).
Proof.
  intros h l w pid [A B] P. rewrite handleTerminalLink_chain.
  set (pr := List.length (promises w)).
  destruct (chain_frame h (fst (resolveAddress h (link l) w))
              (snd (resolveAddress h (link l) w))) as (C & T & _).
  unfold waiting. rewrite chain_outcome, T. unfold lsn at 1. rewrite C.
  fold (lsn (snd (resolveAddress h (link l) w))).
  rewrite (lsn_resolveAddress_live h (link l) w pid P).
  rewrite (resolveAddress_live h (link l) w pid P). cbn [snd timers].
  fold pr. repeat split.
  - unfold outcome_of. cbn [promises]. unfold pr. now rewrite nth_error_snoc.
  - intros p ls Hp Hls. rewrite nth_error_update_nth_neq in Hls by assumption.
    apply nth_error_In in Hls.
    pose proof (proj1 (Forall_forall _ _) A ls Hls) as F.
    eapply Forall_impl; [|exact F]. intros x Hx E.
    unfold targets_below in Hx. rewrite E in Hx. unfold pr in Hx. lia.
  - apply Forall_app; split.
    + eapply Forall_impl; [|exact B]. simpl. intros tm Hlt E.
      unfold pr in E. lia.
    + repeat constructor.
  - apply in_or_app; right. now left.
Qed.


(** C6, as the specification has it, fails: a resolver that exits without
    output within the five seconds has its request rejected with the exit
    error, not with the timeout error, and the timer changes nothing
    afterwards. *)
Lemma exit_before_timeout_is_no_timeout :
  let w := run example_host init
             [MonitorTarget; HandleLink (example_link frame);
              ChildExit 0 (Some 1%Z); ChildClose 0; Tick 5000] in
  outcome_of w 0 = Some (Rejected (ExitedWithCode (Some 1%Z)))
  /\ outcome_of w 0 <> Some (Rejected TimedOut)
  /\ ui w = [ShowErrorMessage
               (js "Error resolving address: addr2line exited with code 1")].
Proof.
  split; [vm_compute; reflexivity|].
  split; [vm_compute; discriminate|vm_compute; reflexivity].
Qed.

(* ===================================================================== *)
(** * The extension at work                                                *)
(* ===================================================================== *)

(** A click on a frame, answered by one line: the file is opened. *)
Example click_one_line :
  ui (run example_host init
        [MonitorTarget; HandleLink (example_link frame);
         ChildData 0 (js "net/socket.c:2432" ++ [cu_newline])]) =
  [openFileLine (js "/linux/net/socket.c") (Num 2432)].
Proof. vm_compute. reflexivity. Qed.

(** A click answered by two lines (inlined code): a menu of both, and the
    second chosen. *)
Example click_two_lines :
  let output := js "net/socket.c:2432" ++ cu_newline ::
                js "include/linux/file.h:?" ++ [cu_newline] in
  let w := run example_host init
             [MonitorTarget; HandleLink (example_link frame);
              ChildData 0 output] in
  let paths := [js "/linux/net/socket.c"; js "/linux/include/linux/file.h"] in
  let numbers := [Num 2432; Num 1] in
  ui w =
    [ShowQuickPick
       [{| label := js "/linux/net/socket.c"; description := Some (js "2432") |};
        {| label := js "/linux/include/linux/file.h";
           description := Some (js "?") |}]
       paths numbers]
  /\ quickPick_selected paths numbers (Some 1%nat) =
     [openFileLine (js "/linux/include/linux/file.h") (Num 1)].
Proof. split; vm_compute; reflexivity. Qed.

(** A click while no resolver runs: the error is shown. *)
Example click_without_resolver :
  ui (run example_host init [HandleLink (example_link frame)]) =
  [ShowErrorMessage
     (js "Error resolving address: addr2line -e vmlinux not running. Is addr2line installed ? Does vmlinux exist ?")].
Proof. vm_compute. reflexivity. Qed.

(* ===================================================================== *)
(** * More on the links of a line                                          *)
(* ===================================================================== *)

Lemma spaced_matches_weaken : forall ms lo lo',
  (lo' <= lo)%nat -> spaced_matches lo ms -> spaced_matches lo' ms.
Proof.
  intros [|m ms] lo lo' H; simpl; auto. intros [A B]. split; auto. lia.
Qed.

Lemma scan_spaced : forall r s i skip,
  spaced_matches (i + skip) (scan r i skip s).
Proof.
  intros r; induction s as [|c s IH]; intros i skip.
  - simpl. destruct skip; [|exact I].
    destruct (match_here r []); simpl; auto. split; [lia|exact I].
  - cbn [scan]. destruct skip as [|k].
    + destruct (match_here r (c :: s)) as [n|] eqn:E.
      * cbn [spaced_matches index matched]. split; [lia|].
        pose proof (match_here_le _ _ _ E) as Hle.
        rewrite length_firstn, Nat.min_l by assumption.
        apply spaced_matches_weaken with (lo := (S i + Nat.pred n)%nat);
          [lia|apply IH].
      * apply spaced_matches_weaken with (lo := (S i + 0)%nat); [lia|apply IH].
    + replace (i + S k)%nat with (S i + k)%nat by lia. apply IH.
Qed.

Lemma spaced_map : forall target ms lo,
  spaced_matches lo ms -> spaced lo (map (link_of_match target) ms).
Proof.
  intros target; induction ms as [|m ms IH]; intros lo; simpl; auto.
  intros [A B]. split; auto.
Qed.

(** X1: the links of a line come in the order of their offsets, do not
    overlap, and lie within the line. *)
Theorem links_are_disjoint_and_in_bounds : forall target line,
  let links := provideTerminalLinks target line in
  spaced 0 links
  /\ Forall (fun l => (startIndex l + length l <= List.length line)%nat) links.
Proof.
  intros target line links. subst links. rewrite provideTerminalLinks_map.
  split.
  - apply spaced_map. apply (scan_spaced frame_regex line 0 0).
  - apply Forall_forall. intros l Hl.
    apply in_map_iff in Hl as (m & <- & Hm).
    apply scan_located in Hm as (a & b & -> & Hi & _).
    cbn [startIndex length link_of_match]. rewrite Hi, !length_app. lia.
Qed.

Lemma in_lang_blocked : forall r t c,
  in_lang r t -> blocks r c = true -> ~ In c t.
Proof.
  intros r t c H. induction H as [|cs r x t A _ IH|cs r x t A _ IH|cs r x t A _ IH];
    intros B.
  - intros [].
  - simpl in B. apply andb_true_iff in B as [B1 B2].
    apply negb_true_iff in B1. simpl in B1.
    intros [->|Hin]; [congruence|now apply IH].
  - simpl in B. apply andb_true_iff in B as [B1 B2].
    apply negb_true_iff in B1. simpl in B1.
    intros [->|Hin]; [congruence|now apply IH].
  - pose proof B as B'. simpl in B. apply andb_true_iff in B as [B1 B2].
    apply negb_true_iff in B1. simpl in B1.
    intros [->|Hin]; [congruence|now apply IH].
Qed.

Lemma in_lang_length : forall r t,
  in_lang r t -> (List.length r <= List.length t)%nat.
Proof. induction 1; simpl in *; lia. Qed.

Lemma in_lang_literal : forall r t c,
  in_lang r t -> In (One (Lit c)) r -> In c t.
Proof.
  intros r t c H. induction H as [|cs r x t A _ IH|cs r x t A _ IH|cs r x t A _ IH];
    intros Hin.
  - destruct Hin.
  - destruct Hin as [E|Hin].
    + inversion E; subst. simpl in A. apply N.eqb_eq in A. now left.
    + right. now apply IH.
  - destruct Hin as [E|Hin]; [discriminate|]. right. now apply IH.
  - right. now apply IH.
Qed.

(** X2: the text of a link holds no space and no colon, holds a "+" and a
    "/", and is at least nine code units long. *)
Theorem link_text_shape : forall target line,
  Forall (fun l =>
            ~ In cu_space (link l) /\ ~ In cu_colon (link l)
            /\ In cu_plus (link l) /\ In 47%N (link l)
            /\ (9 <= length l)%nat)
         (provideTerminalLinks target line).
Proof.
  intros target line. rewrite provideTerminalLinks_map.
  apply Forall_forall. intros l Hl.
  apply in_map_iff in Hl as (m & <- & Hm).
  apply scan_located in Hm as (_ & _ & _ & _ & Hlang).
  cbn [link length link_of_match]. repeat split.
  - apply (in_lang_blocked _ _ _ Hlang). reflexivity.
  - apply (in_lang_blocked _ _ _ Hlang). reflexivity.
  - apply (in_lang_literal _ _ _ Hlang). simpl; auto.
  - apply (in_lang_literal _ _ _ Hlang). simpl; auto 10.
  - apply (in_lang_length _ _ Hlang).
Qed.

(** X3: a line without "+", or shorter than nine code units, has no
    link. *)
Theorem no_plus_no_link : forall target line,
  ~ In cu_plus line \/ (List.length line < 9)%nat ->
  provideTerminalLinks target line = [].
Proof.
  intros target line H. rewrite provideTerminalLinks_map.
  destruct (matchAll frame_regex line) as [|m ms] eqn:E; [reflexivity|].
  exfalso.
  assert (Hm : In m (scan frame_regex 0 0 line))
    by (unfold matchAll in E; rewrite E; now left).
  apply scan_located in Hm as (a & b & Hline & _ & Hlang).
  destruct H as [H|H].
  - apply H. rewrite Hline. apply in_or_app; right. apply in_or_app; left.
    apply (in_lang_literal _ _ _ Hlang). simpl; auto.
  - apply in_lang_length in Hlang. simpl in Hlang.
    rewrite Hline, !length_app in H. lia.
Qed.

Lemma no_plus_no_link_witness :
  provideTerminalLinks (js "vmlinux") (js "Call Trace:") = [].
Proof.
  apply (no_plus_no_link (js "vmlinux") (js "Call Trace:")).
  left. intros H. vm_compute in H. intuition discriminate.
Defined.

(* ===================================================================== *)
(** * More on the parsed output                                            *)
(* ===================================================================== *)




Lemma split_first_sep : forall (sep : code_unit) (s : jsstring),
  In sep s -> exists a b, s = a ++ sep :: b /\ ~ In sep a.
Proof.
  intros sep; induction s as [|c s IH]; intros H; [destruct H|].
  destruct (N.eq_dec c sep) as [->|Hne].
  - exists [], s. split; auto.
  - destruct H as [H|H]; [congruence|].
    destruct (IH H) as (a & b & -> & Ha).
    exists (c :: a), b. split; [reflexivity|].
    intros [E|Hin]; auto.
Qed.

Lemma split_two_pieces : forall sep s,
  In sep s -> exists p1 p2 ps, split sep s = p1 :: p2 :: ps.
Proof.
  intros sep s H. destruct (split_first_sep sep s H) as (a & b & -> & Ha).
  rewrite split_app_sep by assumption.
  destruct (split sep b) as [|p2 ps] eqn:E; [now apply split_not_nil in E|].
  eauto.
Qed.

(** X5: the menu is shown exactly when the trimmed output holds a
    newline; without one the file is opened directly. *)
Theorem menu_iff_newline : forall h output,
  (In cu_newline (trim output) ->
     exists items paths numbers,
       then_callback h output = [ShowQuickPick items paths numbers]
       /\ (2 <= List.length items)%nat
       /\ List.length paths = List.length items
       /\ List.length numbers = List.length items)
  /\ (~ In cu_newline (trim output) ->
     then_callback h output =
     [openFileLine (realPath_of_pair h (file_and_lineStr (trim output)))
        (line_of_pair (file_and_lineStr (trim output)))]).
Proof.
  intros h output. split; intros H.
  - destruct (split_two_pieces cu_newline (trim output) H) as (p1 & p2 & ps & E).
    assert (R : resolution_result output =
                file_and_lineStr p1 :: file_and_lineStr p2
                  :: map file_and_lineStr ps)
      by (unfold resolution_result; rewrite E; reflexivity).
    rewrite (then_callback_many h output _ _ _ R).
    eexists _, _, _. split; [reflexivity|].
    rewrite !length_map. simpl. repeat split; lia.
  - apply then_callback_single. apply resolution_result_one_line.
    now apply split_no_sep.
Qed.

Lemma menu_iff_newline_witness :
  then_callback example_host (js "a.c:1") =
  [openFileLine
     (realPath_of_pair example_host (file_and_lineStr (trim (js "a.c:1"))))
     (line_of_pair (file_and_lineStr (trim (js "a.c:1"))))].
Proof.
  apply (menu_iff_newline example_host (js "a.c:1")).
  intros H. vm_compute in H. intuition discriminate.
Defined.

(** X6: the recorded line has no lower bound.  For a one-line output
    with a colon whose tail [parseInt] reads as an integer below 1 (the 0
    the resolver prints for an unknown line, or a negative number), the
    line is kept as it is read, not replaced by 1: the file named before
    the first colon is opened, building the selection for a negative row
    throws, and nothing is shown. *)
Theorem line_is_not_clamped : forall h output f rest z,
  split cu_newline (trim output) = [f ++ cu_colon :: rest] ->
  ~ In cu_colon f ->
  parseInt_string rest = Num z ->
  (z <= 0)%Z ->
  lines_of (parse_output h output) = [Num z]
  /\ then_callback h output =
     [OpenTextDocumentOnly (path_resolve h (relativeTo h) (trimStart f))].
Proof.
  intros h output f rest z E Hf Hz Hle.
  pose proof (resolution_result_one_line output _ E) as R.
  destruct (lineStr_of_line f rest Hf) as (lineStr & Efl & _).
  assert (L : line_of_pair (file_and_lineStr (f ++ cu_colon :: rest)) = Num z).
  { unfold line_of_pair. rewrite line_number_of_line by assumption.
    now rewrite Hz. }
  split.
  - rewrite parse_output_map, R. cbn [lines_of map]. now rewrite L.
  - rewrite (then_callback_single h output _ R), L.
    unfold realPath_of_pair. rewrite Efl. cbn [fst].
    now rewrite openFileLine_throws.
Qed.

Lemma line_is_not_clamped_witness :
  lines_of (parse_output example_host (js "a.c:0")) = [Num 0]
  /\ then_callback example_host (js "a.c:0") =
     [OpenTextDocumentOnly
        (path_resolve example_host (relativeTo example_host)
           (trimStart (js "a.c")))].
Proof.
  apply (line_is_not_clamped example_host (js "a.c:0") (js "a.c") (js "0") 0).
  - vm_compute. reflexivity.
  - intros H. vm_compute in H. intuition discriminate.
  - vm_compute. reflexivity.
  - lia.
Defined.

(** X7: the three arrays of the loop have one element per output line, so
    every item of the menu has its path and its line, which is never
    [NaN].  Choosing the item of an output line acts on the resolved path
    and the line recorded for that line: with a line of at least 1 the
    path is shown with the cursor on the row of that line, with a line
    below 1 the selection cannot be built and nothing is shown.
    Dismissing the menu does nothing. *)
Theorem menu_choice_opens_its_pair : forall h output,
  let p := parse_output h output in
  let outputLines := split cu_newline (trim output) in
  List.length (quickPickItems p) = List.length outputLines
  /\ List.length (realPaths_of p) = List.length outputLines
  /\ List.length (lines_of p) = List.length outputLines
  /\ (forall i l, nth_error outputLines i = Some l ->
        let file := path_resolve h (relativeTo h) (fst (file_and_lineStr l)) in
        exists z,
          nth_error (realPaths_of p) i = Some file
          /\ nth_error (lines_of p) i = Some (Num z)
          /\ line_number (snd (file_and_lineStr l)) = Num z
          /\ ((1 <= z <= max_safe_integer)%Z ->
              quickPick_selected (realPaths_of p) (lines_of p) (Some i) =
              [ShowTextDocument file (Num (z - 1))])
          /\ ((z <= 0)%Z ->
              quickPick_selected (realPaths_of p) (lines_of p) (Some i) =
              [OpenTextDocumentOnly file]))
  /\ quickPick_selected (realPaths_of p) (lines_of p) None = [].
Proof.
  intros h output p outputLines. subst p outputLines.
  rewrite parse_output_map.
  cbn [quickPickItems realPaths_of lines_of].
  assert (L : List.length (resolution_result output) =
              List.length (split cu_newline (trim output)))
    by (unfold resolution_result; apply length_map).
  rewrite !length_map, L.
  split; [reflexivity|]. split; [reflexivity|]. split; [reflexivity|].
  split; [|reflexivity].
  intros i l E.
  set (file := path_resolve h (relativeTo h) (fst (file_and_lineStr l))).
  assert (Ep : nth_error (resolution_result output) i
               = Some (file_and_lineStr l))
    by (unfold resolution_result; rewrite nth_error_map, E; reflexivity).
  destruct (line_number_Num (snd (file_and_lineStr l))) as (z & Hz).
  exists z.
  assert (S : quickPick_selected
                (map (realPath_of_pair h) (resolution_result output))
                (map line_of_pair (resolution_result output)) (Some i) =
              [openFileLine file (Num z)]).
  { rewrite (quickPick_selected_opens h _ i _ Ep).
    unfold line_of_pair. now rewrite Hz. }
  repeat split.
  - now rewrite nth_error_map, Ep.
  - rewrite nth_error_map, Ep. unfold line_of_pair. cbn [option_map].
    now rewrite Hz.
  - exact Hz.
  - intros Hr. rewrite S, openFileLine_shows by lia. reflexivity.
  - intros Hr. rewrite S, openFileLine_throws by lia. reflexivity.
Qed.

Lemma menu_choice_opens_its_pair_witness :
  quickPick_selected
    (realPaths_of (parse_output example_host
                     (js "a.c:1" ++ cu_newline :: js "b.h:2")))
    (lines_of (parse_output example_host
                 (js "a.c:1" ++ cu_newline :: js "b.h:2")))
    (Some 1%nat) =
  [ShowTextDocument
     (path_resolve example_host (relativeTo example_host)
        (fst (file_and_lineStr (js "b.h:2"))))
     (Num (2 - 1))].
Proof.
  pose proof (menu_choice_opens_its_pair example_host
                (js "a.c:1" ++ cu_newline :: js "b.h:2")) as (_ & _ & _ & H & _).
  destruct (H 1%nat (js "b.h:2")) as (z & _ & _ & Hz & Hshow & _).
  - vm_compute. reflexivity.
  - assert (E : z = 2%Z) by (vm_compute in Hz; congruence).
    subst z. apply Hshow. vm_compute. split; discriminate.
Defined.

(** X8: the file is what stands before the first colon and the line
    string what stands between the first and the second; a path that holds
    a colon is cut there, and what follows a second colon (a column, a
    discriminator) is ignored. *)
Theorem pair_is_cut_at_colons : forall f l rest,
  ~ In cu_colon f -> ~ In cu_colon l ->
  file_and_lineStr (f ++ cu_colon :: l ++ cu_colon :: rest) =
  (trimStart f, Some l).
Proof.
  intros f l rest Hf Hl. unfold file_and_lineStr.
  rewrite trim_stop by reflexivity.
  rewrite trimEnd_stop by reflexivity.
  rewrite split_app_sep by (intros H; apply Hf; now apply in_trimStart).
  rewrite split_app_sep by assumption.
  reflexivity.
Qed.

Lemma pair_is_cut_at_colons_witness :
  file_and_lineStr (js "C" ++ cu_colon :: js "\src\a.c" ++ cu_colon :: js "12") =
  (trimStart (js "C"), Some (js "\src\a.c")).
Proof.
  apply (pair_is_cut_at_colons (js "C") (js "\src\a.c") (js "12"));
    intros H; vm_compute in H; intuition discriminate.
Defined.

(* ===================================================================== *)
(** * The handle along every trace                                         *)
(* ===================================================================== *)

Lemma sound_ext : forall w w',
  process w' = process w -> children w' = children w -> sound w -> sound w'.
Proof. intros w w' P C. unfold sound. now rewrite P, C. Qed.

Lemma sound_update : forall (f : child -> child) q w,
  (forall c, gone (state c) = false -> gone (state (f c)) = false) ->
  (forall c, In ClearHandle (listeners c) -> In ClearHandle (listeners (f c))) ->
  sound w -> sound (set_children (update_nth q f (children w)) w).
Proof.
  intros f q w Hs Hl [A B]. split.
  - cbn [process children set_children]. intros p Hp.
    destruct (A p Hp) as (c & Hc & G).
    destruct (Nat.eq_dec p q) as [->|Hne].
    + exists (f c). rewrite nth_error_update_nth_eq, Hc. auto.
    + exists c. rewrite nth_error_update_nth_neq by assumption. auto.
  - cbn [children set_children]. now apply Forall_update_nth.
Qed.

Lemma kill_child_keeps : forall c,
  (gone (state c) = false -> gone (state (kill_child c)) = false)
  /\ listeners (kill_child c) = listeners c.
Proof.
  intros c. unfold kill_child.
  destruct (state c) eqn:S; simpl; rewrite ?S; auto.
Qed.

Lemma sound_kill : forall pid w, sound w -> sound (kill pid w).
Proof.
  intros pid w. apply sound_update; intros c H.
  - now apply kill_child_keeps.
  - now rewrite (proj2 (kill_child_keeps c)).
Qed.

Lemma sound_start : forall h t w, sound w -> sound (start h t w).
Proof.
  intros h t w H. unfold start.
  assert (H1 : sound (match process w with
                      | Some pid => kill pid w
                      | None => w
                      end))
    by (destruct (process w); [now apply sound_kill|assumption]).
  destruct H1 as [_ B]. split.
  - cbn [process children set_process set_children]. intros p Hp.
    inversion Hp; subst p. exists (spawned h t).
    split; [apply nth_error_snoc|reflexivity].
  - cbn [children set_process set_children].
    apply Forall_app; split; auto. repeat constructor.
Qed.

Lemma sound_stop : forall w, sound w -> sound (stop w).
Proof.
  intros w H. unfold stop. destruct (process w) as [pid|]; auto.
  destruct (sound_kill pid w H) as [_ B]. split; [discriminate|exact B].
Qed.

Lemma sound_settle : forall h q o w, sound w -> sound (settle h q o w).
Proof.
  intros h q o w. destruct (settle_frame h q o w) as (P & _ & C & _).
  now apply sound_ext.
Qed.

Lemma chain_process : forall h q w, process (chain h q w) = process w.
Proof.
  intros h q w. unfold chain. now destruct (nth_error (promises w) q).
Qed.

Lemma sound_handleTerminalLink : forall h l w,
  sound w -> sound (handleTerminalLink h l w).
Proof.
  intros h l w H. rewrite handleTerminalLink_chain.
  destruct (chain_frame h (fst (resolveAddress h (link l) w))
              (snd (resolveAddress h (link l) w))) as (C & _ & _).
  apply (sound_ext (snd (resolveAddress h (link l) w))); auto.
  - apply chain_process.
  - destruct (process w) as [pid|] eqn:P.
    + rewrite (resolveAddress_live h (link l) w pid P). cbn [snd].
      pose proof (sound_update
                    (fun c => write_stdin (link l ++ [cu_newline])
                                (add_listeners
                                   (query_listeners (List.length (promises w))) c))
                    pid w) as U.
      assert (S : sound (set_children
                  (update_nth pid
                     (fun c => write_stdin (link l ++ [cu_newline])
                                 (add_listeners
                                    (query_listeners (List.length (promises w))) c))
                     (children w)) w)).
      { apply U; auto. intros c Hc. simpl. apply in_or_app; now left. }
      revert S. apply sound_ext; [exact (eq_sym P)|reflexivity].
    + unfold resolveAddress. rewrite P. exact H.
Qed.

Lemma sound_watch : forall h select w, sound w -> sound (watch h select w).
Proof.
  intros h select w H. unfold watch.
  destruct (targetWatcher w) as [wt|]; auto.
  apply (fold_left_inv _ _ sound); auto.
  intros a [t|] Ha; cbn [run_wcallback];
    [now apply sound_start|now apply sound_stop].
Qed.

Lemma sound_monitorTarget : forall h w, sound w -> sound (monitorTarget h w).
Proof.
  intros h w H. unfold monitorTarget.
  destruct (workspaceFolders h) as [[|folder folders]|]; try exact H.
  destruct (existsSync h (folder ++ js "/" ++ cfg_target h)).
  - apply (sound_start h (folder ++ js "/" ++ cfg_target h)
             (set_targetWatcher None w)). exact H.
  - exact H.
Qed.

(** The 'close' listener of [start] is among the listeners: after the
    loop the handle is empty. *)
Lemma on_close_clears : forall h code ls w,
  In ClearHandle ls -> process (fold_left (on_close h code) ls w) = None.
Proof.
  intros h code.
  assert (Keep : forall ls w, process w = None ->
                              process (fold_left (on_close h code) ls w) = None).
  { intros ls w Hw. apply (fold_left_inv _ _ (fun a => process a = None)); auto.
    intros a [|q|q|q] Ha; cbn [on_close]; auto.
    now rewrite (proj1 (settle_frame _ _ _ _)). }
  induction ls as [|l ls IH]; intros w Hin; [destruct Hin|].
  simpl. destruct Hin as [->|Hin]; [now apply Keep|now apply IH].
Qed.

Lemma on_close_children : forall h code ls w,
  children (fold_left (on_close h code) ls w) = children w.
Proof.
  intros h code ls w.
  apply (fold_left_inv _ _ (fun a => children a = children w)); auto.
  intros a [|q|q|q] Ha; cbn [on_close]; auto.
  now rewrite (proj1 (proj2 (proj2 (settle_frame _ _ _ _)))).
Qed.

(** Every turn keeps the handle sound. *)
Lemma sound_step : forall h w e, sound w -> sound (step h w e).
Proof.
  intros h w e H. destruct e; cbn [step].
  - now apply sound_start.
  - now apply sound_stop.
  - now apply sound_monitorTarget.
  - now apply sound_watch.
  - now apply sound_watch.
  - now apply sound_watch.
  - now apply sound_handleTerminalLink.
  - destruct (nth_error (children w) pid) as [[? ? [| |] ? ?]|]; auto.
    now apply sound_update.
  - destruct (nth_error (children w) pid) as [c|] eqn:Hc; auto.
    destruct (state c) eqn:S; auto.
    assert (Hin : In ClearHandle (listeners c)).
    { destruct H as [_ B]. apply nth_error_In in Hc.
      exact (proj1 (Forall_forall _ _) B c Hc). }
    split.
    + rewrite on_close_clears by assumption. discriminate.
    + rewrite on_close_children. cbn [children set_children].
      apply Forall_update_nth; [auto|apply H].
  - destruct (nth_error (children w) pid) as [c|]; auto.
    destruct (gone (state c)); auto.
    apply (fold_left_inv _ _ sound); auto.
    intros a [|q|q|q] Ha; cbn [on_error]; auto. now apply sound_settle.
  - destruct (nth_error (children w) pid) as [c|]; auto.
    destruct (gone (state c)); auto.
    apply (fold_left_inv _ _ sound); auto.
    intros a [|q|q|q] Ha; cbn [on_data]; auto. now apply sound_settle.
  - apply (fold_left_inv _ _ sound).
    + intros a tm Ha. unfold on_timer. destruct (fst tm <=? t)%N; auto.
      now apply sound_settle.
    + exact H.
Qed.

Lemma sound_init : sound init.
Proof. split; [discriminate|constructor]. Qed.

Lemma sound_run : forall h es w, sound w -> sound (run h w es).
Proof.
  intros h; induction es as [|e es IH]; intros w H; simpl; auto.
  apply IH. now apply sound_step.
Qed.

(** X9: along every trace the handle, when set, names a child that was
    spawned and whose 'close' has not been emitted, so a query on a set
    handle is always written to the stdin of that child. *)
Theorem handle_never_dangles : forall h es p,
  let w := run h init es in
  process w = Some p ->
  exists c,
    nth_error (children w) p = Some c
    /\ state c <> Closed
    /\ forall address,
         stdin_of (snd (resolveAddress h address w)) p =
         Some (stdin c ++ [address ++ [cu_newline]]).
Proof.
  intros h es p w P.
  destruct (sound_run h es init sound_init) as [A _].
  destruct (A p P) as (c & Hc & G). exists c. repeat split; auto.
  - intros E. fold w in Hc. rewrite E in G. discriminate.
  - intros address. rewrite (resolveAddress_live h address w p P).
    unfold stdin_of. cbn [snd children].
    fold w in Hc. rewrite nth_error_update_nth_eq, Hc. reflexivity.
Qed.

Lemma handle_never_dangles_witness :
  exists c,
    nth_error (children (run example_host init [MonitorTarget; WatchChange])) 1
      = Some c
    /\ state c <> Closed
    /\ forall address,
         stdin_of (snd (resolveAddress example_host address
                          (run example_host init [MonitorTarget; WatchChange]))) 1 =
         Some (stdin c ++ [address ++ [cu_newline]]).
Proof.
  apply (handle_never_dangles example_host [MonitorTarget; WatchChange] 1).
  reflexivity.
Defined.

(** X10: the 'close' of any child clears the handle, whichever child the
    handle names, and leaves every other child as it is: a resolver that
    was running in the handle keeps running without a handle. *)
Theorem any_close_clears_the_handle : forall h es p c code,
  let w := run h init es in
  nth_error (children w) p = Some c ->
  state c = Exited code ->
  let w' := step h w (ChildClose p) in
  process w' = None
  /\ option_map state (nth_error (children w') p) = Some Closed
  /\ forall q, q <> p -> nth_error (children w') q = nth_error (children w) q.
Proof.
  intros h es p c code w Hc S w'. subst w'. cbn [step]. rewrite Hc, S.
  destruct (sound_run h es init sound_init) as [_ B]. fold w in B.
  assert (Hin : In ClearHandle (listeners c)).
  { apply nth_error_In in Hc. exact (proj1 (Forall_forall _ _) B c Hc). }
  rewrite on_close_clears by assumption.
  rewrite on_close_children. cbn [children set_children].
  repeat split.
  - now rewrite nth_error_update_nth_eq, Hc.
  - intros q Hq. now apply nth_error_update_nth_neq.
Qed.

Lemma any_close_clears_the_handle_witness :
  let w := run example_host init [MonitorTarget; WatchChange] in
  process w = Some 1%nat
  /\ process (step example_host w (ChildClose 0)) = None
  /\ option_map state (nth_error (children (step example_host w (ChildClose 0))) 1)
     = Some Running.
Proof.
  intros w.
  pose proof (any_close_clears_the_handle example_host
                [MonitorTarget; WatchChange] 0
                {| command := js "addr2line";
                   args := [js "-i"; js "-e"; js "/linux/vmlinux"];
                   state := Exited None; stdin := [];
                   listeners := [ClearHandle] |} None
                ltac:(vm_compute; reflexivity) eq_refl) as (H1 & _ & H3).
  split; [vm_compute; reflexivity|]. split; [exact H1|].
  fold w in H3. rewrite (H3 1%nat) by discriminate. vm_compute. reflexivity.
Defined.

(* ===================================================================== *)
(** * The fate of a request                                                *)
(* ===================================================================== *)

(** A click with a resolver in the handle, field by field. *)
Lemma handleTerminalLink_live : forall h l w pid,
  process w = Some pid ->
  let pr := List.length (promises w) in
  let w1 := handleTerminalLink h l w in
  process w1 = Some pid
  /\ children w1 =
     update_nth pid
       (fun c => write_stdin (link l ++ [cu_newline])
                   (add_listeners (query_listeners pr) c))
       (children w)
  /\ timers w1 = timers w ++ [((clock w + timeout_ms)%N, pr)]
  /\ List.length (promises w1) = S pr
  /\ outcome_of w1 pr = Some Pending
  /\ ui w1 = ui w.
Proof.
  intros h l w pid P pr w1. subst w1 pr.
  rewrite handleTerminalLink_chain.
  destruct (chain_frame h (fst (resolveAddress h (link l) w))
              (snd (resolveAddress h (link l) w))) as (C & T & L).
  rewrite chain_process, C, T, L, chain_outcome.
  unfold chain.
  rewrite (resolveAddress_live h (link l) w pid P).
  cbn [fst snd process children timers promises ui].
  rewrite nth_error_snoc. cbn [ui set_ui set_promises outcome reaction].
  rewrite app_nil_r, length_app. cbn [List.length].
  repeat split; auto; [lia|].
  unfold outcome_of. cbn [promises]. now rewrite nth_error_snoc.
Qed.

Lemma outcome_of_promises : forall w w' pr,
  promises w' = promises w -> outcome_of w' pr = outcome_of w pr.
Proof. intros w w' pr E. unfold outcome_of. now rewrite E. Qed.

Lemma settled_settle : forall h q x w pr o,
  outcome_of w pr = Some o -> o <> Pending ->
  outcome_of (settle h q x w) pr = Some o.
Proof.
  intros h q x w pr o H Ho.
  destruct (settle_outcome_cases h q x w pr) as [E|(_ & E & _)]; congruence.
Qed.

Lemma outcome_resolveAddress : forall h address w pr o,
  outcome_of w pr = Some o ->
  outcome_of (snd (resolveAddress h address w)) pr = Some o.
Proof.
  intros h address w pr o H.
  assert (Hlt : (pr < List.length (promises w))%nat).
  { unfold outcome_of in H. apply nth_error_Some.
    destruct (nth_error (promises w) pr); discriminate. }
  unfold outcome_of in *. unfold resolveAddress.
  destruct (process w); cbn [snd promises set_promises set_timers set_children];
    now rewrite nth_error_app1.
Qed.

Lemma watch_promises : forall h select w,
  promises (watch h select w) = promises w.
Proof.
  intros h select w. unfold watch.
  destruct (targetWatcher w) as [wt|]; auto.
  apply (fold_left_inv _ _ (fun a => promises a = promises w)); auto.
  intros a [t|] Ha; cbn [run_wcallback].
  - now rewrite (proj1 (proj2 (start_view h t a))).
  - now rewrite (proj1 (proj2 (stop_view a))).
Qed.

Lemma monitorTarget_promises : forall h w,
  promises (monitorTarget h w) = promises w.
Proof.
  intros h w. unfold monitorTarget.
  destruct (workspaceFolders h) as [[|folder folders]|]; try reflexivity.
  destruct (existsSync h (folder ++ js "/" ++ cfg_target h)); [|reflexivity].
  cbn [promises set_targetWatcher].
  now rewrite (proj1 (proj2 (start_view h _ _))).
Qed.

Lemma settled_step : forall h w e pr o,
  outcome_of w pr = Some o -> o <> Pending ->
  outcome_of (step h w e) pr = Some o.
Proof.
  intros h w e pr o H Ho.
  assert (Fold : forall (B : Type) (f : world -> B -> world) ls w0,
            (forall a b, outcome_of a pr = Some o ->
                         outcome_of (f a b) pr = Some o) ->
            outcome_of w0 pr = Some o ->
            outcome_of (fold_left f ls w0) pr = Some o).
  { intros B f ls w0 Hf H0.
    exact (fold_left_inv _ _ (fun a => outcome_of a pr = Some o) f Hf ls w0 H0). }
  destruct e; cbn [step].
  - rewrite (outcome_of_promises w); auto. apply start_view.
  - rewrite (outcome_of_promises w); auto. apply stop_view.
  - rewrite (outcome_of_promises w); auto. apply monitorTarget_promises.
  - rewrite (outcome_of_promises w); auto. apply watch_promises.
  - rewrite (outcome_of_promises w); auto. apply watch_promises.
  - rewrite (outcome_of_promises w); auto. apply watch_promises.
  - rewrite handleTerminalLink_chain, chain_outcome.
    now apply outcome_resolveAddress.
  - destruct (nth_error (children w) pid) as [[? ? [| |] ? ?]|]; auto.
  - destruct (nth_error (children w) pid) as [c|]; auto.
    destruct (state c); auto. apply Fold; auto.
    intros a [|q|q|q] Ha; cbn [on_close]; auto. now apply settled_settle.
  - destruct (nth_error (children w) pid) as [c|]; auto.
    destruct (gone (state c)); auto. apply Fold; auto.
    intros a [|q|q|q] Ha; cbn [on_error]; auto. now apply settled_settle.
  - destruct (nth_error (children w) pid) as [c|]; auto.
    destruct (gone (state c)); auto. apply Fold; auto.
    intros a [|q|q|q] Ha; cbn [on_data]; auto. now apply settled_settle.
  - apply Fold; auto.
    intros a tm Ha. unfold on_timer. destruct (fst tm <=? t)%N; auto.
    now apply settled_settle.
Qed.

Lemma settled_run : forall h es w pr o,
  outcome_of w pr = Some o -> o <> Pending ->
  outcome_of (run h w es) pr = Some o.
Proof.
  intros h; induction es as [|e es IH]; intros w pr o H Ho; simpl; auto.
  apply IH; auto. now apply settled_step.
Qed.

(** X11: a promise settles once.  Whatever happens after a request has
    been resolved or rejected (more data, an error, the close of the
    child, its timer, new requests, restarts) leaves its outcome as it
    is. *)
Theorem promise_settles_once : forall h es w pr o,
  outcome_of w pr = Some o -> o <> Pending ->
  outcome_of (run h w es) pr = Some o.
Proof. intros h es w pr o H Ho. now apply settled_run. Qed.

Lemma promise_settles_once_witness :
  outcome_of
    (run example_host
       (run example_host init
          [MonitorTarget; HandleLink (example_link frame);
           ChildData 0 (js "a.c:1")])
       [ChildData 0 (js "b.c:2"); Tick 5000; Stop; ChildClose 0]) 0 =
  Some (Resolved (js "a.c:1")).
Proof.
  apply promise_settles_once.
  - vm_compute. reflexivity.
  - discriminate.
Defined.


(* ===================================================================== *)
(** * Listeners and timers pile up                                         *)
(* ===================================================================== *)

(** X13: clicks in a row on one resolver.  Each writes its query behind
    the former ones, in the order of the clicks, and each adds three
    listeners to the child, one timer and one promise; nothing is taken
    away in between. *)
Theorem clicks_accumulate : forall h ls w pid c,
  process w = Some pid ->
  nth_error (children w) pid = Some c ->
  let w' := run h w (map HandleLink ls) in
  process w' = Some pid
  /\ (exists c',
        nth_error (children w') pid = Some c'
        /\ stdin c' = stdin c ++ map (fun l => link l ++ [cu_newline]) ls
        /\ List.length (listeners c') =
           (List.length (listeners c) + 3 * List.length ls)%nat)
  /\ List.length (timers w') = (List.length (timers w) + List.length ls)%nat
  /\ List.length (promises w') =
     (List.length (promises w) + List.length ls)%nat.
Proof.
  intros h; induction ls as [|l ls IH]; intros w pid c P Hc; cbn [map run fold_left].
  - repeat split; auto; try lia.
    exists c. rewrite app_nil_r. repeat split; auto; simpl; lia.
  - destruct (handleTerminalLink_live h l w pid P) as (P1 & C1 & T1 & L1 & _ & _).
    cbn [step].
    set (w1 := handleTerminalLink h l w) in *.
    assert (Hc1 : nth_error (children w1) pid =
                  Some (write_stdin (link l ++ [cu_newline])
                          (add_listeners
                             (query_listeners (List.length (promises w))) c)))
      by (rewrite C1, nth_error_update_nth_eq, Hc; reflexivity).
    destruct (IH w1 pid _ P1 Hc1) as (P' & (c' & Hc' & S' & Ls') & T' & L').
    fold (run h w1 (map HandleLink ls)).
    repeat split; auto.
    + exists c'. repeat split; auto.
      * rewrite S'. cbn [stdin write_stdin add_listeners map].
        now rewrite <- app_assoc.
      * rewrite Ls'. cbn [listeners write_stdin add_listeners].
        rewrite length_app. simpl. lia.
    + rewrite T', T1, length_app. simpl. lia.
    + rewrite L', L1. simpl. lia.
Qed.

Lemma clicks_accumulate_witness :
  List.length
    (timers (run example_host (run example_host init [MonitorTarget])
               (map HandleLink
                  [example_link (js "a+0x1/0x2"); example_link frame]))) =
  (List.length (timers (run example_host init [MonitorTarget])) +
   List.length [example_link (js "a+0x1/0x2"); example_link frame])%nat.
Proof.
  apply (clicks_accumulate example_host
           [example_link (js "a+0x1/0x2"); example_link frame]
           (run example_host init [MonitorTarget]) 0
           (spawned example_host (js "/linux/vmlinux")));
    vm_compute; reflexivity.
Defined.

Lemma grows_refl : forall L, grows L L.
Proof. intros L p ls H. exists []. now rewrite app_nil_r. Qed.

Lemma grows_trans : forall L1 L2 L3, grows L1 L2 -> grows L2 L3 -> grows L1 L3.
Proof.
  intros L1 L2 L3 H12 H23 p ls H.
  destruct (H12 p ls H) as (e1 & H1). destruct (H23 p _ H1) as (e2 & H2).
  exists (e1 ++ e2). now rewrite app_assoc.
Qed.

Lemma grows_eq : forall L L', L' = L -> grows L L'.
Proof. intros L L' ->. apply grows_refl. Qed.

Lemma grows_start : forall h t w, grows (lsn w) (lsn (start h t w)).
Proof.
  intros h t w p ls H. rewrite (proj1 (start_view h t w)).
  exists []. rewrite app_nil_r, nth_error_app1; auto.
  apply nth_error_Some. congruence.
Qed.

Lemma grows_handleTerminalLink : forall h l w,
  grows (lsn w) (lsn (handleTerminalLink h l w)).
Proof.
  intros h l w. rewrite handleTerminalLink_chain.
  destruct (chain_frame h (fst (resolveAddress h (link l) w))
              (snd (resolveAddress h (link l) w))) as (C & _ & _).
  unfold lsn at 2. rewrite C. fold (lsn (snd (resolveAddress h (link l) w))).
  destruct (process w) as [pid|] eqn:P.
  - rewrite (lsn_resolveAddress_live h (link l) w pid P).
    intros p ls H. destruct (Nat.eq_dec p pid) as [->|Hne].
    + rewrite nth_error_update_nth_eq, H. simpl; eauto.
    + rewrite nth_error_update_nth_neq by assumption.
      exists []. now rewrite app_nil_r.
  - unfold resolveAddress. rewrite P. apply grows_refl.
Qed.

Lemma grows_fold : forall (B : Type) (f : world -> B -> world) w,
  (forall a b, grows (lsn a) (lsn (f a b))) ->
  forall ls w0, grows (lsn w) (lsn w0) -> grows (lsn w) (lsn (fold_left f ls w0)).
Proof.
  intros B f w Hf ls w0 H0.
  apply (fold_left_inv _ _ (fun a => grows (lsn w) (lsn a))); auto.
  intros a b Ha. eapply grows_trans; eauto.
Qed.

Lemma grows_step : forall h w e, grows (lsn w) (lsn (step h w e)).
Proof.
  intros h w e.
  assert (W : forall select, grows (lsn w) (lsn (watch h select w))).
  { intros select. unfold watch. destruct (targetWatcher w); [|apply grows_refl].
    apply grows_fold; [|apply grows_refl].
    intros a [t|]; cbn [run_wcallback];
      [apply grows_start|apply grows_eq, stop_view]. }
  assert (S : forall h0 q o a, grows (lsn a) (lsn (settle h0 q o a)))
    by (intros; apply grows_eq, settle_view).
  destruct e; cbn [step]; auto.
  - apply grows_start.
  - apply grows_eq, stop_view.
  - unfold monitorTarget.
    destruct (workspaceFolders h) as [[|folder folders]|]; try apply grows_refl.
    destruct (existsSync h (folder ++ js "/" ++ cfg_target h));
      [|apply grows_refl].
    apply (grows_start h (folder ++ js "/" ++ cfg_target h)
             (set_targetWatcher None w)).
  - apply grows_handleTerminalLink.
  - destruct (nth_error (children w) pid) as [[? ? [| |] ? ?]|];
      try apply grows_refl.
    apply grows_eq, lsn_with_state.
  - destruct (nth_error (children w) pid) as [c|]; [|apply grows_refl].
    destruct (state c); try apply grows_refl.
    apply grows_fold; [|apply grows_eq, lsn_with_state].
    intros a [|q|q|q]; cbn [on_close]; auto; apply grows_refl.
  - destruct (nth_error (children w) pid) as [c|]; [|apply grows_refl].
    destruct (gone (state c)); [apply grows_refl|].
    apply grows_fold; [|apply grows_refl].
    intros a [|q|q|q]; cbn [on_error]; auto; apply grows_refl.
  - destruct (nth_error (children w) pid) as [c|]; [|apply grows_refl].
    destruct (gone (state c)); [apply grows_refl|].
    apply grows_fold; [|apply grows_refl].
    intros a [|q|q|q]; cbn [on_data]; auto; apply grows_refl.
  - apply grows_fold; [|apply grows_refl].
    intros a tm. unfold on_timer. destruct (fst tm <=? t)%N; auto.
    apply grows_refl.
Qed.

(** X14: no listener is ever removed.  Along every trace a child keeps
    its place and the listeners it had, in their order; later ones are
    added behind them. *)
Theorem listeners_are_never_removed : forall h es w p c,
  nth_error (children w) p = Some c ->
  exists c' extra,
    nth_error (children (run h w es)) p = Some c'
    /\ listeners c' = listeners c ++ extra.
Proof.
  intros h es w p c Hc.
  assert (G : forall w0, grows (lsn w0) (lsn (run h w0 es))).
  { induction es as [|e es IH]; intros w0; simpl.
    - apply grows_refl.
    - eapply grows_trans; [apply grows_step|apply IH]. }
  specialize (G w).
  destruct (G p (listeners c)) as (extra & He).
  { unfold lsn. now rewrite nth_error_map, Hc. }
  unfold lsn in He. rewrite nth_error_map in He.
  destruct (nth_error (children (run h w es)) p) as [c'|]; [|discriminate].
  exists c', extra. split; auto. simpl in He. congruence.
Qed.

Lemma listeners_are_never_removed_witness :
  exists c' extra,
    nth_error
      (children
         (run example_host (run example_host init [MonitorTarget])
            [HandleLink (example_link frame); ChildData 0 (js "a.c:1");
             Tick 6000; WatchChange; ChildClose 0])) 0 = Some c'
    /\ listeners c' =
       listeners (spawned example_host (js "/linux/vmlinux")) ++ extra.
Proof.
  apply (listeners_are_never_removed example_host
           [HandleLink (example_link frame); ChildData 0 (js "a.c:1");
            Tick 6000; WatchChange; ChildClose 0]
           (run example_host init [MonitorTarget]) 0
           (spawned example_host (js "/linux/vmlinux"))).
  vm_compute. reflexivity.
Defined.

(* ===================================================================== *)
(** * Stopping, restarting, and no workspace                               *)
(* ===================================================================== *)

Lemma click_without_handle : forall h l w,
  process w = None ->
  let w' := handleTerminalLink h l w in
  process w' = None
  /\ targetWatcher w' = targetWatcher w
  /\ children w' = children w
  /\ timers w' = timers w
  /\ ui w' = ui w ++ [ShowErrorMessage
                        (js "Error resolving address: " ++
                         message (NotRunning (cfg_target h)))].
Proof.
  intros h l w P w'. subst w'.
  unfold handleTerminalLink, resolveAddress. rewrite P.
  unfold chain. cbn [promises set_promises]. rewrite nth_error_snoc.
  cbn. rewrite P. repeat split.
Qed.

(** X15: [stop] twice is [stop] once, and a click after [stop] is
    answered by the "not running" error: nothing is written to the child
    that was stopped or to any other, and no timer is armed. *)
Theorem click_after_stop : forall h l w,
  let w1 := stop w in
  let w2 := handleTerminalLink h l w1 in
  stop w1 = w1
  /\ process w1 = None
  /\ ui w2 = ui w ++ [ShowErrorMessage
                        (js "Error resolving address: " ++
                         message (NotRunning (cfg_target h)))]
  /\ children w2 = children w1
  /\ timers w2 = timers w.
Proof.
  intros h l w w1 w2.
  assert (P1 : process w1 = None) by apply stop_spec.
  assert (U : ui w1 = ui w /\ timers w1 = timers w)
    by (subst w1; unfold stop; destruct (process w); split; reflexivity).
  destruct (click_without_handle h l w1 P1) as (_ & _ & C & T & Ui).
  fold w2 in C, T, Ui. repeat split; auto.
  - unfold stop. now rewrite P1.
  - rewrite Ui. now rewrite (proj1 U).
  - rewrite T. apply U.
Qed.

Lemma monitorTarget_no_workspace_eq : forall h w,
  no_workspace h -> monitorTarget h w = set_targetWatcher None w.
Proof.
  intros h w N. unfold monitorTarget. destruct N as [-> | ->]; reflexivity.
Qed.

(** X16: [monitorTarget] without a workspace folder gives up the watcher
    and leaves the handle and the children alone: a resolver that runs is
    not stopped, and notifications of the former watcher do nothing any
    more. *)
Theorem monitorTarget_without_workspace : forall h w,
  no_workspace h ->
  let w' := monitorTarget h w in
  w' = set_targetWatcher None w
  /\ process w' = process w
  /\ children w' = children w
  /\ forall h' e,
       e = WatchChange \/ e = WatchCreate \/ e = WatchDelete ->
       step h' w' e = w'.
Proof.
  intros h w N w'.
  assert (E : w' = set_targetWatcher None w)
    by (subst w'; now apply monitorTarget_no_workspace_eq).
  rewrite E. repeat split.
  intros h' e [-> | [-> | ->]]; reflexivity.
Qed.

Lemma monitorTarget_without_workspace_witness :
  let h := {| cfg_command := js "addr2line"; cfg_target := js "vmlinux";
              workspaceFolders := None; existsSync := fun _ => true;
              path_resolve := fun _ file => file;
              path_relative := fun _ file => file |} in
  let w := run example_host init [MonitorTarget] in
  process (monitorTarget h w) = process w.
Proof.
  intros h w.
  apply (monitorTarget_without_workspace h w). now left.
Defined.

Lemma settle_fold_frame : forall (B : Type) (f : world -> B -> world),
  (forall a b, process (f a b) = process a
               /\ targetWatcher (f a b) = targetWatcher a
               /\ children (f a b) = children a) ->
  forall ls w,
    process (fold_left f ls w) = process w
    /\ targetWatcher (fold_left f ls w) = targetWatcher w
    /\ children (fold_left f ls w) = children w.
Proof.
  intros B f Hf ls w.
  apply (fold_left_inv _ _
           (fun a => process a = process w
                     /\ targetWatcher a = targetWatcher w
                     /\ children a = children w)); auto.
  intros a b (P & T & C). destruct (Hf a b) as (P' & T' & C').
  repeat split; congruence.
Qed.

(** X17: without a workspace folder the extension never starts a
    resolver.  Whatever the editor and the runtime deliver, there is no
    handle, no child and no watcher, and every click is answered by the
    "not running" error. *)
Theorem no_workspace_no_resolver : forall h es l,
  no_workspace h ->
  forallb delivered es = true ->
  let w := run h init es in
  process w = None
  /\ children w = []
  /\ targetWatcher w = None
  /\ ui (handleTerminalLink h l w) =
     ui w ++ [ShowErrorMessage
                (js "Error resolving address: " ++
                 message (NotRunning (cfg_target h)))].
Proof.
  intros h es l N D w.
  assert (I : process w = None /\ children w = [] /\ targetWatcher w = None).
  { subst w.
    assert (G : forall w0,
              process w0 = None /\ children w0 = [] /\ targetWatcher w0 = None ->
              process (run h w0 es) = None /\ children (run h w0 es) = []
              /\ targetWatcher (run h w0 es) = None).
    { induction es as [|e es IH]; intros w0 H0; simpl; auto.
      simpl in D. apply andb_true_iff in D as [De Des].
      apply IH; auto. destruct H0 as (P & C & T).
      destruct e; try discriminate; cbn [step].
      - rewrite (monitorTarget_no_workspace_eq h w0 N). auto.
      - unfold watch. rewrite T. auto.
      - unfold watch. rewrite T. auto.
      - unfold watch. rewrite T. auto.
      - destruct (click_without_handle h l0 w0 P) as (P' & T' & C' & _).
        repeat split; congruence.
      - rewrite C. now destruct pid.
      - rewrite C. now destruct pid.
      - rewrite C. now destruct pid.
      - rewrite C. now destruct pid.
      - destruct (settle_fold_frame _ (on_timer h t)) with
          (ls := timers w0)
          (w := set_clock (N.max (clock w0) t)
                  (set_timers (filter (not_due t) (timers w0)) w0))
          as (P' & T' & C').
        + intros a tm. unfold on_timer. destruct (fst tm <=? t)%N; auto.
          destruct (settle_frame h (snd tm) (Rejected TimedOut) a)
            as (? & ? & ? & _). auto.
        + rewrite P', T', C'. auto. }
    apply G. repeat split. }
  destruct I as (P & C & T). repeat split; auto.
  apply click_without_handle. exact P.
Qed.

Lemma no_workspace_no_resolver_witness :
  let h := {| cfg_command := js "addr2line"; cfg_target := js "vmlinux";
              workspaceFolders := Some []; existsSync := fun _ => true;
              path_resolve := fun _ file => file;
              path_relative := fun _ file => file |} in
  process (run h init [MonitorTarget; WatchCreate;
                       HandleLink (example_link frame); Tick 5000]) = None.
Proof.
  intros h.
  apply (no_workspace_no_resolver h
           [MonitorTarget; WatchCreate; HandleLink (example_link frame);
            Tick 5000] (example_link frame)).
  - now right.
  - reflexivity.
Defined.

Lemma on_close_cases : forall h code w l pr,
  outcome_of (on_close h code w l) pr = outcome_of w pr
  \/ (outcome_of w pr = Some Pending
      /\ outcome_of (on_close h code w l) pr =
         Some (Rejected (ExitedWithCode code))).
Proof.
  intros h code w [|q|q|q] pr; cbn [on_close]; auto.
  destruct (settle_outcome_cases h q (Rejected (ExitedWithCode code)) w pr)
    as [E|(_ & E1 & E2)]; auto.
Qed.


(* ===================================================================== *)
(** * One resolver, until a replaced child closes                          *)
(* ===================================================================== *)

Lemma held_update : forall (f : child -> child) q w,
  (forall c, is_running (f c) = true -> is_running c = true) ->
  held w -> held (set_children (update_nth q f (children w)) w).
Proof.
  intros f q w Hf H p c Hc R. cbn [process children set_children] in *.
  apply nth_error_update_nth in Hc as (x & Hx & [->|[_ ->]]); eauto.
Qed.

Lemma held_ext : forall w w',
  process w' = process w -> children w' = children w -> held w -> held w'.
Proof. intros w w' P C. unfold held. now rewrite P, C. Qed.

Lemma kill_child_not_running : forall c, is_running (kill_child c) = false.
Proof.
  intros c. unfold kill_child, is_running.
  destruct (state c) eqn:S; simpl; rewrite ?S; reflexivity.
Qed.

(** After the child in the handle has been killed, none runs. *)
Lemma held_kill_idle : forall w p c,
  held w ->
  nth_error (children (match process w with
                       | Some pid => kill pid w
                       | None => w
                       end)) p = Some c ->
  is_running c = false.
Proof.
  intros w p c H Hc. destruct (is_running c) eqn:R; auto. exfalso.
  destruct (process w) as [pid|] eqn:P.
  - cbn [kill children set_children] in Hc.
    destruct (Nat.eq_dec p pid) as [->|Hne].
    + rewrite nth_error_update_nth_eq in Hc.
      destruct (nth_error (children w) pid); [|discriminate].
      inversion Hc; subst. rewrite kill_child_not_running in R. discriminate.
    + rewrite nth_error_update_nth_neq in Hc by assumption.
      specialize (H p c Hc R). congruence.
  - specialize (H p c Hc R). congruence.
Qed.

Lemma held_start : forall h t w, held w -> held (start h t w).
Proof.
  intros h t w H p c Hc R. unfold start in *.
  set (w1 := match process w with Some pid => kill pid w | None => w end) in *.
  cbn [process children set_process set_children] in *.
  destruct (Nat.lt_ge_cases p (List.length (children w1))) as [Hlt|Hge].
  - rewrite nth_error_app1 in Hc by assumption.
    rewrite (held_kill_idle w p c H Hc) in R. discriminate.
  - rewrite nth_error_app2 in Hc by assumption.
    destruct (p - List.length (children w1))%nat as [|k] eqn:E.
    + f_equal. lia.
    + destruct k; discriminate.
Qed.

Lemma held_stop : forall w, held w -> held (stop w).
Proof.
  intros w H p c Hc R. unfold stop in *.
  destruct (process w) as [pid|] eqn:P.
  - cbn [process children set_process] in *.
    pose proof (held_kill_idle w p c H) as K. rewrite P in K.
    rewrite (K Hc) in R. discriminate.
  - specialize (H p c Hc R). congruence.
Qed.

Lemma held_watch : forall h select w, held w -> held (watch h select w).
Proof.
  intros h select w H. unfold watch.
  destruct (targetWatcher w) as [wt|]; auto.
  apply (fold_left_inv _ _ held); auto.
  intros a [t|] Ha; cbn [run_wcallback];
    [now apply held_start|now apply held_stop].
Qed.

Lemma held_handleTerminalLink : forall h l w,
  held w -> held (handleTerminalLink h l w).
Proof.
  intros h l w H. destruct (process w) as [pid|] eqn:P.
  - destruct (handleTerminalLink_live h l w pid P) as (P1 & C1 & _).
    intros p c Hc R. rewrite P1, <- P. rewrite C1 in Hc.
    apply nth_error_update_nth in Hc as (x & Hx & [->|[_ ->]]); eauto.
  - destruct (click_without_handle h l w P) as (P1 & _ & C1 & _).
    revert H. apply held_ext; congruence.
Qed.

Lemma held_settle_fold : forall (B : Type) (f : world -> B -> world),
  (forall a b, process (f a b) = process a
               /\ targetWatcher (f a b) = targetWatcher a
               /\ children (f a b) = children a) ->
  forall ls w, held w -> held (fold_left f ls w).
Proof.
  intros B f Hf ls w H.
  destruct (settle_fold_frame B f Hf ls w) as (P & _ & C).
  revert H. now apply held_ext.
Qed.

Lemma settle_three : forall h q o a,
  process (settle h q o a) = process a
  /\ targetWatcher (settle h q o a) = targetWatcher a
  /\ children (settle h q o a) = children a.
Proof.
  intros h q o a. destruct (settle_frame h q o a) as (? & ? & ? & _). auto.
Qed.

Lemma held_step : forall h w e,
  closes_in_handle h w [e] = true -> held w -> held (step h w e).
Proof.
  intros h w e G H. destruct e; cbn [step].
  - now apply held_start.
  - now apply held_stop.
  - unfold monitorTarget.
    destruct (workspaceFolders h) as [[|folder folders]|]; try exact H.
    destruct (existsSync h (folder ++ js "/" ++ cfg_target h)); [|exact H].
    apply (held_start h (folder ++ js "/" ++ cfg_target h)
             (set_targetWatcher None w)). exact H.
  - now apply held_watch.
  - now apply held_watch.
  - now apply held_watch.
  - now apply held_handleTerminalLink.
  - destruct (nth_error (children w) pid) as [[? ? [| |] ? ?]|]; auto.
    apply held_update; auto. intros c R. discriminate R.
  - destruct (nth_error (children w) pid) as [c|] eqn:Hc; auto.
    destruct (state c) eqn:S; auto.
    intros p x Hx R. exfalso.
    rewrite on_close_children in Hx. cbn [children set_children] in Hx.
    destruct (Nat.eq_dec p pid) as [->|Hne].
    + rewrite nth_error_update_nth_eq, Hc in Hx. inversion Hx; subst.
      discriminate.
    + rewrite nth_error_update_nth_neq in Hx by assumption.
      specialize (H p x Hx R). simpl in G. rewrite H in G.
      rewrite andb_true_r in G. apply Nat.eqb_eq in G. congruence.
  - destruct (nth_error (children w) pid) as [c|]; auto.
    destruct (gone (state c)); auto.
    apply held_settle_fold; auto.
    intros a [|q|q|q]; cbn [on_error]; auto. apply settle_three.
  - destruct (nth_error (children w) pid) as [c|]; auto.
    destruct (gone (state c)); auto.
    apply held_settle_fold; auto.
    intros a [|q|q|q]; cbn [on_data]; auto. apply settle_three.
  - apply held_settle_fold; auto.
    intros a tm. unfold on_timer. destruct (fst tm <=? t)%N; auto.
    apply settle_three.
Qed.

Lemma filter_at_most_one : forall (A : Type) (f : A -> bool) (l : list A),
  (forall i j x y, nth_error l i = Some x -> f x = true ->
                   nth_error l j = Some y -> f y = true -> i = j) ->
  (List.length (filter f l) <= 1)%nat.
Proof.
  intros A f; induction l as [|x l IH]; intros H; simpl; auto.
  destruct (f x) eqn:Fx.
  - assert (E : filter f l = []).
    { destruct (filter f l) as [|y ys] eqn:Ef; auto. exfalso.
      assert (Hy : In y (filter f l)) by (rewrite Ef; now left).
      apply filter_In in Hy as [Hy Fy].
      apply In_nth_error in Hy as [j Hj].
      specialize (H O (S j) x y eq_refl Fx Hj Fy). discriminate. }
    rewrite E. simpl; lia.
  - apply IH. intros i j a b Ha Fa Hb Fb.
    specialize (H (S i) (S j) a b Ha Fa Hb Fb). lia.
Qed.

(** X19: as long as no child closes after it has been replaced in the
    handle, at most one resolver runs, and it is the one the handle
    names. *)
Theorem one_resolver_until_stale_close : forall h es,
  closes_in_handle h init es = true ->
  let w := run h init es in
  (List.length (live w) <= 1)%nat
  /\ forall p c, nth_error (children w) p = Some c ->
       is_running c = true -> process w = Some p.
Proof.
  intros h es G w.
  assert (H : held w).
  { subst w.
    assert (K : forall w0, closes_in_handle h w0 es = true -> held w0 ->
                           held (run h w0 es)).
    { clear G. induction es as [|e es IH]; intros w0 G0 H0; simpl; auto.
      simpl in G0. apply andb_true_iff in G0 as [Ge Ges].
      apply IH; auto. apply held_step; auto.
      simpl. now rewrite Ge. }
    apply K; auto. intros p c Hc. now destruct p. }
  split; auto. unfold live. apply filter_at_most_one.
  intros i j x y Hx Fx Hy Fy.
  pose proof (H i x Hx Fx). pose proof (H j y Hy Fy). congruence.
Qed.

Lemma one_resolver_until_stale_close_witness :
  (List.length
     (live (run example_host init
              [MonitorTarget; WatchChange; WatchDelete; ChildClose 1;
               WatchCreate])) <= 1)%nat.
Proof.
  apply (one_resolver_until_stale_close example_host
           [MonitorTarget; WatchChange; WatchDelete; ChildClose 1;
            WatchCreate]).
  vm_compute. reflexivity.
Defined.

(** X20: activation before the target has been built.  [monitorTarget] in
    a workspace whose target does not exist starts no resolver but does
    watch: a click is answered by the "not running" error, and the create
    notification then starts the resolver on the target, after which a
    click is written to it. *)
Theorem target_built_after_activation : forall h folder folders l,
  workspaceFolders h = Some (folder :: folders) ->
  existsSync h (folder ++ js "/" ++ cfg_target h) = false ->
  let w := monitorTarget h init in
  let w' := step h w WatchCreate in
  process w = None
  /\ children w = []
  /\ ui (handleTerminalLink h l w) =
     [ShowErrorMessage
        (js "Error resolving address: " ++ message (NotRunning (cfg_target h)))]
  /\ process w' = Some 0%nat
  /\ children w' = [spawned h (folder ++ js "/" ++ cfg_target h)]
  /\ stdin_of (handleTerminalLink h l w') 0 = Some [link l ++ [cu_newline]].
Proof.
  intros h folder folders l F E w w'.
  assert (Ew : w = set_targetWatcher
                     (Some {| pattern := folder ++ js "/" ++ cfg_target h;
                              onDidChange :=
                                [CallStart (folder ++ js "/" ++ cfg_target h)];
                              onDidCreate :=
                                [CallStart (folder ++ js "/" ++ cfg_target h)];
                              onDidDelete := [CallStop] |}) init)
    by (subst w; unfold monitorTarget; rewrite F, E; reflexivity).
  assert (Ew' : w' = start h (folder ++ js "/" ++ cfg_target h) w)
    by (subst w'; rewrite Ew; reflexivity).
  assert (P' : process w' = Some 0%nat) by (rewrite Ew', Ew; reflexivity).
  assert (C' : children w' = [spawned h (folder ++ js "/" ++ cfg_target h)])
    by (rewrite Ew', Ew; reflexivity).
  repeat split; auto.
  - now rewrite Ew.
  - now rewrite Ew.
  - destruct (click_without_handle h l w) as (_ & _ & _ & _ & U);
      [now rewrite Ew|].
    rewrite U, Ew. reflexivity.
  - destruct (handleTerminalLink_live h l w' 0 P') as (_ & C1 & _).
    unfold stdin_of. rewrite C1, C'. reflexivity.
Qed.

Lemma target_built_after_activation_witness :
  process (step host_without_target (monitorTarget host_without_target init)
             WatchCreate) = Some 0%nat.
Proof.
  apply (target_built_after_activation host_without_target (js "/linux") []
           (example_link frame)); reflexivity.
Defined.

(* ===================================================================== *)
(** * What settles a request, and when                                     *)
(* ===================================================================== *)

Lemma grows_run : forall h es w, grows (lsn w) (lsn (run h w es)).
Proof.
  intros h; induction es as [|e es IH]; intros w; simpl.
  - apply grows_refl.
  - eapply grows_trans; [apply grows_step|apply IH].
Qed.

Lemma evolves_refl : forall c, evolves c c.
Proof. intros c. now left. Qed.

Lemma evolves_trans : forall c1 c2 c3,
  evolves c1 c2 -> evolves c2 c3 -> evolves c1 c3.
Proof.
  intros c1 c2 c3 [E12|(R1 & code & E2)] [E23|(R2 & code' & E3)].
  - left. congruence.
  - right. split; [congruence|eauto].
  - right. split; auto. exists code. congruence.
  - congruence.
Qed.

Lemma evolves_not_gone : forall c c',
  evolves c c' -> gone (state c) = false -> gone (state c') = false.
Proof.
  intros c c' [E|(_ & code & E)] G; rewrite E; auto.
Qed.

Lemma evolves_exited : forall c c' code,
  evolves c c' -> state c = Exited code -> state c' = Exited code.
Proof. intros c c' code [E|(R & _)] S; congruence. Qed.

Lemma evolves_kill_child : forall x, evolves x (kill_child x).
Proof.
  intros x. unfold kill_child. destruct (state x) eqn:S.
  - right. split; auto. exists None. reflexivity.
  - now left.
  - now left.
Qed.

Lemma evolves_update : forall (f : child -> child) q cs pid c,
  (forall x, evolves x (f x)) ->
  nth_error cs pid = Some c ->
  exists c', nth_error (update_nth q f cs) pid = Some c' /\ evolves c c'.
Proof.
  intros f q cs pid c Hf Hc. destruct (Nat.eq_dec pid q) as [->|Hne].
  - exists (f c). rewrite nth_error_update_nth_eq, Hc. auto.
  - exists c. rewrite nth_error_update_nth_neq by assumption.
    split; [assumption|apply evolves_refl].
Qed.

Lemma evolves_start : forall h t w pid c,
  nth_error (children w) pid = Some c ->
  exists c', nth_error (children (start h t w)) pid = Some c' /\ evolves c c'.
Proof.
  intros h t w pid c Hc.
  assert (Hlt : (pid < List.length (children w))%nat)
    by (apply nth_error_Some; rewrite Hc; discriminate).
  unfold start. destruct (process w) as [q|];
    cbn [children set_process set_children kill].
  - destruct (evolves_update kill_child q (children w) pid c
                evolves_kill_child Hc) as (c' & Hc' & E).
    exists c'. split; auto.
    rewrite nth_error_app1 by (rewrite length_update_nth; lia). exact Hc'.
  - exists c. rewrite nth_error_app1 by lia. split; [assumption|apply evolves_refl].
Qed.

Lemma evolves_stop : forall w pid c,
  nth_error (children w) pid = Some c ->
  exists c', nth_error (children (stop w)) pid = Some c' /\ evolves c c'.
Proof.
  intros w pid c Hc. unfold stop. destruct (process w) as [q|].
  - cbn [children set_process kill set_children].
    apply evolves_update; auto. apply evolves_kill_child.
  - exists c. split; [assumption|apply evolves_refl].
Qed.

Lemma evolves_fold : forall (B : Type) (f : world -> B -> world) pid,
  (forall a b x, nth_error (children a) pid = Some x ->
     exists x', nth_error (children (f a b)) pid = Some x' /\ evolves x x') ->
  forall ls w c, nth_error (children w) pid = Some c ->
    exists c', nth_error (children (fold_left f ls w)) pid = Some c'
               /\ evolves c c'.
Proof.
  intros B f pid Hf ls w c Hc.
  apply (fold_left_inv _ _
           (fun a => exists c', nth_error (children a) pid = Some c'
                                /\ evolves c c')).
  - intros a b (x & Hx & Ex). destruct (Hf a b x Hx) as (x' & Hx' & Ex').
    exists x'. split; auto. eapply evolves_trans; eauto.
  - exists c. split; [assumption|apply evolves_refl].
Qed.

Lemma evolves_same : forall w w' pid c,
  children w' = children w ->
  nth_error (children w) pid = Some c ->
  exists c', nth_error (children w') pid = Some c' /\ evolves c c'.
Proof.
  intros w w' pid c E Hc. exists c. rewrite E.
  split; [assumption|apply evolves_refl].
Qed.

Lemma evolves_watch : forall h select w pid c,
  nth_error (children w) pid = Some c ->
  exists c', nth_error (children (watch h select w)) pid = Some c'
             /\ evolves c c'.
Proof.
  intros h select w pid c Hc. unfold watch.
  destruct (targetWatcher w) as [wt|]; [|now apply (evolves_same w)].
  apply evolves_fold; auto.
  intros a [t|] x Hx; cbn [run_wcallback];
    [now apply evolves_start|now apply evolves_stop].
Qed.

(** A child whose 'close' is not the event stays as it is or terminates. *)
Lemma evolves_step : forall h w e pid c,
  e <> ChildClose pid ->
  nth_error (children w) pid = Some c ->
  exists c', nth_error (children (step h w e)) pid = Some c' /\ evolves c c'.
Proof.
  intros h w e pid c Hne Hc.
  assert (Settle : forall (B : Type) (f : world -> B -> world) ls,
            (forall a b, process (f a b) = process a
                         /\ targetWatcher (f a b) = targetWatcher a
                         /\ children (f a b) = children a) ->
            exists c', nth_error (children (fold_left f ls w)) pid = Some c'
                       /\ evolves c c').
  { intros B f ls Hf. apply (evolves_same w); auto.
    apply (settle_fold_frame B f Hf ls w). }
  destruct e; cbn [step].
  - now apply evolves_start.
  - now apply evolves_stop.
  - unfold monitorTarget.
    destruct (workspaceFolders h) as [[|folder folders]|];
      try now apply (evolves_same w).
    destruct (existsSync h (folder ++ js "/" ++ cfg_target h));
      [|now apply (evolves_same w)].
    cbn [children set_targetWatcher].
    apply (evolves_start h (folder ++ js "/" ++ cfg_target h)
             (set_targetWatcher None w)). exact Hc.
  - now apply evolves_watch.
  - now apply evolves_watch.
  - now apply evolves_watch.
  - destruct (process w) as [q|] eqn:P.
    + destruct (handleTerminalLink_live h l w q P) as (_ & C1 & _).
      rewrite C1. apply evolves_update; auto. intros x. now left.
    + destruct (click_without_handle h l w P) as (_ & _ & C1 & _).
      now apply (evolves_same w).
  - destruct (nth_error (children w) pid0) as [x|] eqn:Hx;
      [|now apply (evolves_same w)].
    destruct x as [cmd ar st sin ls]. destruct st;
      try now apply (evolves_same w).
    cbn [children set_children].
    destruct (Nat.eq_dec pid pid0) as [->|Hq].
    + rewrite nth_error_update_nth_eq, Hx. cbn [option_map].
      eexists. split; [reflexivity|].
      rewrite Hx in Hc. inversion Hc; subst c.
      right. split; [reflexivity|]. exists code. reflexivity.
    + exists c. rewrite nth_error_update_nth_neq by assumption.
      split; [assumption|apply evolves_refl].
  - assert (Hq : pid <> pid0) by congruence.
    destruct (nth_error (children w) pid0) as [x|] eqn:Hx;
      [|now apply (evolves_same w)].
    destruct (state x); try now apply (evolves_same w).
    exists c. rewrite on_close_children. cbn [children set_children].
    rewrite nth_error_update_nth_neq by assumption.
    split; [assumption|apply evolves_refl].
  - destruct (nth_error (children w) pid0) as [x|];
      [|now apply (evolves_same w)].
    destruct (gone (state x)); [now apply (evolves_same w)|].
    apply Settle. intros a [|q|q|q]; cbn [on_error]; auto. apply settle_three.
  - destruct (nth_error (children w) pid0) as [x|];
      [|now apply (evolves_same w)].
    destruct (gone (state x)); [now apply (evolves_same w)|].
    apply Settle. intros a [|q|q|q]; cbn [on_data]; auto. apply settle_three.
  - destruct (settle_fold_frame _ (on_timer h t)) with
      (ls := timers w)
      (w := set_clock (N.max (clock w) t)
              (set_timers (filter (not_due t) (timers w)) w))
      as (_ & _ & C').
    + intros a tm. unfold on_timer. destruct (fst tm <=? t)%N; auto.
      apply settle_three.
    + exists c. rewrite C'. split; [assumption|apply evolves_refl].
Qed.

Lemma evolves_run : forall h pid deadline es w c,
  quiet pid deadline es = true ->
  nth_error (children w) pid = Some c ->
  exists c', nth_error (children (run h w es)) pid = Some c' /\ evolves c c'.
Proof.
  intros h pid deadline; induction es as [|e es IH]; intros w c Q Hc.
  - exists c. split; [assumption|apply evolves_refl].
  - simpl in Q. apply andb_true_iff in Q as [Qe Qes].
    apply negb_true_iff in Qe.
    assert (Hne : e <> ChildClose pid).
    { intros ->. simpl in Qe. rewrite Nat.eqb_refl in Qe. discriminate. }
    destruct (evolves_step h w e pid c Hne Hc) as (c1 & Hc1 & E1).
    destruct (IH _ c1 Qes Hc1) as (c2 & Hc2 & E2).
    exists c2. split; [exact Hc2|eapply evolves_trans; eauto].
Qed.

(** The listeners of a child after more events: those it had, and more. *)
Lemma listeners_after : forall w w' pid c c',
  grows (lsn w) (lsn w') ->
  nth_error (children w) pid = Some c ->
  nth_error (children w') pid = Some c' ->
  exists extra, listeners c' = listeners c ++ extra.
Proof.
  intros w w' pid c c' G Hc Hc'.
  destruct (G pid (listeners c)) as (extra & He).
  { unfold lsn. now rewrite nth_error_map, Hc. }
  unfold lsn in He. rewrite nth_error_map, Hc' in He.
  exists extra. simpl in He. congruence.
Qed.

(** A click on a resolver, followed by events that do not touch the
    request: the request waits, and the child it waits on is there, not
    closed, with the three listeners of the request and the one of
    [start]. *)
Lemma request_child : forall h es0 l pid es,
  let w := run h init es0 in
  let pr := List.length (promises w) in
  let deadline := (clock w + timeout_ms)%N in
  process w = Some pid ->
  quiet pid deadline es = true ->
  let w1 := run h (handleTerminalLink h l w) es in
  waiting pr pid deadline w1
  /\ exists c1,
       nth_error (children w1) pid = Some c1
       /\ gone (state c1) = false
       /\ (forall x, In x (query_listeners pr) -> In x (listeners c1))
       /\ In ClearHandle (listeners c1).
Proof.
  intros h es0 l pid es w pr deadline P Q w1.
  split.
  { apply waiting_run; auto. apply handleTerminalLink_waits; auto.
    apply wf_run, wf_init. }
  destruct (sound_run h es0 init sound_init) as [A B]. fold w in A, B.
  destruct (A pid P) as (c & Hc & G).
  assert (Hin : In ClearHandle (listeners c))
    by (exact (proj1 (Forall_forall _ _) B c (nth_error_In _ _ Hc))).
  destruct (handleTerminalLink_live h l w pid P) as (_ & C1 & _).
  set (f := fun c0 : child =>
              write_stdin (link l ++ [cu_newline])
                (add_listeners (query_listeners (List.length (promises w))) c0))
    in *.
  assert (Hc0 : nth_error (children (handleTerminalLink h l w)) pid = Some (f c))
    by (rewrite C1, nth_error_update_nth_eq, Hc; reflexivity).
  destruct (evolves_run h pid deadline es _ (f c) Q Hc0) as (c1 & Hc1 & E).
  exists c1. fold w1 in Hc1. split; [exact Hc1|]. split.
  - apply (evolves_not_gone (f c)); auto.
  - destruct (listeners_after _ w1 pid (f c) c1
                (grows_run h es (handleTerminalLink h l w)) Hc0 Hc1)
      as (extra & L).
    rewrite L. unfold f. cbn [listeners write_stdin add_listeners]. split.
    + intros x Hx. apply in_or_app; left. apply in_or_app; now right.
    + apply in_or_app; left. apply in_or_app; now left.
Qed.

Lemma on_error_cases : forall h w l pr,
  outcome_of (on_error h w l) pr = outcome_of w pr
  \/ (outcome_of w pr = Some Pending
      /\ outcome_of (on_error h w l) pr = Some (Rejected ErroredOut)).
Proof.
  intros h w [|q|q|q] pr; cbn [on_error]; auto.
  destruct (settle_outcome_cases h q (Rejected ErroredOut) w pr)
    as [E|(_ & E1 & E2)]; auto.
Qed.

Lemma data_resolves : forall h w pid c pr data,
  nth_error (children w) pid = Some c ->
  gone (state c) = false ->
  In (ResolveOnData pr) (listeners c) ->
  outcome_of w pr = Some Pending ->
  outcome_of (step h w (ChildData pid data)) pr = Some (Resolved data).
Proof.
  intros h w pid c pr data Hc G Hin O. cbn [step]. rewrite Hc, G.
  apply fold_settles with (b0 := ResolveOnData pr); auto.
  - discriminate.
  - intros; apply on_data_cases.
  - intros a Ha. cbn [on_data]. now apply settle_outcome_pending.
Qed.

Lemma error_rejects : forall h w pid c pr,
  nth_error (children w) pid = Some c ->
  gone (state c) = false ->
  In (RejectOnError pr) (listeners c) ->
  outcome_of w pr = Some Pending ->
  outcome_of (step h w (ChildError pid)) pr = Some (Rejected ErroredOut).
Proof.
  intros h w pid c pr Hc G Hin O. cbn [step]. rewrite Hc, G.
  apply fold_settles with (b0 := RejectOnError pr); auto.
  - discriminate.
  - intros; apply on_error_cases.
  - intros a Ha. cbn [on_error]. now apply settle_outcome_pending.
Qed.

Lemma close_rejects : forall h w pid c code pr,
  nth_error (children w) pid = Some c ->
  state c = Exited code ->
  In (RejectOnClose pr) (listeners c) ->
  outcome_of w pr = Some Pending ->
  outcome_of (step h w (ChildClose pid)) pr =
  Some (Rejected (ExitedWithCode code)).
Proof.
  intros h w pid c code pr Hc S Hin O. cbn [step]. rewrite Hc, S.
  apply fold_settles with (b0 := RejectOnClose pr); auto.
  - discriminate.
  - intros; apply on_close_cases.
  - intros a Ha. cbn [on_close]. now apply settle_outcome_pending.
Qed.

(** C6, as the code has it.  A link is handled on a resolver, and then
    anything happens but data, an error or the close of that child, or
    the clock reaching five seconds after the call.  The promise is then
    pending, and what comes first decides: the clock reaching the
    deadline rejects it with the timeout error; an error of the child
    rejects it with "errored out", and the close of the child with "exited
    with code ...", and the timer that fires later changes neither. *)
Theorem timeout_rejects_unanswered_request : forall h es0 l pid es t,
  let w := run h init es0 in
  let pr := List.length (promises w) in
  let deadline := (clock w + timeout_ms)%N in
  process w = Some pid ->
  quiet pid deadline es = true ->
  (deadline <= t)%N ->
  let w1 := run h (handleTerminalLink h l w) es in
  outcome_of w1 pr = Some Pending
  /\ outcome_of (step h w1 (Tick t)) pr = Some (Rejected TimedOut)
  /\ message TimedOut = js "addr2line resolution timed out after 5 seconds"
  /\ outcome_of (step h w1 (ChildError pid)) pr = Some (Rejected ErroredOut)
  /\ outcome_of (run h w1 [ChildError pid; Tick t]) pr =
     Some (Rejected ErroredOut)
  /\ forall c1 code,
       nth_error (children w1) pid = Some c1 ->
       state c1 = Exited code ->
       outcome_of (step h w1 (ChildClose pid)) pr =
       Some (Rejected (ExitedWithCode code))
       /\ outcome_of (run h w1 [ChildClose pid; Tick t]) pr =
          Some (Rejected (ExitedWithCode code)).
Proof.
  intros h es0 l pid es t w pr deadline P Q Ht w1.
  destruct (request_child h es0 l pid es P Q)
    as (W & c1 & Hc1 & G & Hl & _).
  fold w pr deadline w1 in W, Hc1, Hl.
  pose proof (proj1 W) as O.
  assert (E : outcome_of (step h w1 (ChildError pid)) pr =
              Some (Rejected ErroredOut)).
  { apply (error_rejects h w1 pid c1); auto. apply Hl. simpl; auto. }
  split; [exact O|]. split; [eapply waiting_times_out; eauto|].
  split; [reflexivity|]. split; [exact E|]. split.
  - cbn [run fold_left]. apply settled_step; [exact E|discriminate].
  - intros c code Hc S.
    assert (C : outcome_of (step h w1 (ChildClose pid)) pr =
                Some (Rejected (ExitedWithCode code))).
    { apply (close_rejects h w1 pid c); auto.
      rewrite Hc1 in Hc. inversion Hc; subst c. apply Hl. simpl; auto. }
    split; [exact C|].
    cbn [run fold_left]. apply settled_step; [exact C|discriminate].
Qed.

Lemma timeout_rejects_unanswered_request_witness :
  outcome_of
    (step example_host
       (run example_host
          (handleTerminalLink example_host (example_link frame)
             (run example_host init [MonitorTarget]))
          [Tick 1000; HandleLink (example_link frame); ChildClose 7])
       (Tick 5000))
    (List.length (promises (run example_host init [MonitorTarget]))) =
  Some (Rejected TimedOut).
Proof.
  pose proof (timeout_rejects_unanswered_request example_host [MonitorTarget]
                (example_link frame) 0
                [Tick 1000; HandleLink (example_link frame); ChildClose 7] 5000
                ltac:(vm_compute; reflexivity) ltac:(vm_compute; reflexivity)
                ltac:(vm_compute; discriminate)) as (_ & H & _).
  exact H.
Defined.

(** X12: only the first chunk of output counts.  When the first thing to
    reach a pending request is a 'data' event of its child (no error or
    close of that child and not the timeout came before), the request is
    resolved with the text of that event alone; chunks that follow, the
    timer, and whatever else happens later are ignored. *)
Theorem first_chunk_is_the_answer : forall h es0 l pid es data es',
  let w := run h init es0 in
  let pr := List.length (promises w) in
  let deadline := (clock w + timeout_ms)%N in
  process w = Some pid ->
  quiet pid deadline es = true ->
  let w1 := run h (handleTerminalLink h l w) es in
  let w2 := step h w1 (ChildData pid data) in
  outcome_of w1 pr = Some Pending
  /\ outcome_of w2 pr = Some (Resolved data)
  /\ outcome_of (run h w2 es') pr = Some (Resolved data).
Proof.
  intros h es0 l pid es data es' w pr deadline P Q w1 w2.
  destruct (request_child h es0 l pid es P Q)
    as (W & c1 & Hc1 & G & Hl & _).
  fold w pr deadline w1 in W, Hc1, Hl.
  pose proof (proj1 W) as O.
  assert (R : outcome_of w2 pr = Some (Resolved data)).
  { apply (data_resolves h w1 pid c1); auto. apply Hl. simpl; auto. }
  split; [exact O|]. split; [exact R|].
  apply settled_run; [exact R|discriminate].
Qed.

Lemma first_chunk_is_the_answer_witness :
  outcome_of
    (run example_host
       (step example_host
          (run example_host
             (handleTerminalLink example_host (example_link frame)
                (run example_host init [MonitorTarget]))
             [Tick 1000; HandleLink (example_link (js "a+0x1/0x2"))])
          (ChildData 0 (js "a.c:1")))
       [ChildData 0 (js "b.c:2"); Tick 9000])
    (List.length (promises (run example_host init [MonitorTarget]))) =
  Some (Resolved (js "a.c:1")).
Proof.
  pose proof (first_chunk_is_the_answer example_host [MonitorTarget]
                (example_link frame) 0
                [Tick 1000; HandleLink (example_link (js "a+0x1/0x2"))]
                (js "a.c:1") [ChildData 0 (js "b.c:2"); Tick 9000]
                ltac:(vm_compute; reflexivity) ltac:(vm_compute; reflexivity))
    as (_ & _ & H).
  exact H.
Defined.

(** X18: a restart while a request is pending.  The request waits on the
    child in the handle, which runs; [start] kills that child and puts a
    new one, running, in the handle.  When the 'close' of the killed child
    is the first thing to reach the request (no data or error of that
    child and not the timeout came before), the request is rejected with
    "addr2line exited with code null"; that close also clears the handle,
    and touches no other child. *)
Theorem restart_rejects_pending_request : forall h es0 l es1 t es2 pid c1,
  let w := run h init es0 in
  let pr := List.length (promises w) in
  let deadline := (clock w + timeout_ms)%N in
  process w = Some pid ->
  quiet pid deadline es1 = true ->
  let w1 := run h (handleTerminalLink h l w) es1 in
  process w1 = Some pid ->
  nth_error (children w1) pid = Some c1 ->
  state c1 = Running ->
  quiet pid deadline es2 = true ->
  let w2 := run h (start h t w1) es2 in
  let w3 := step h w2 (ChildClose pid) in
  process (start h t w1) = Some (List.length (children w1))
  /\ nth_error (children (start h t w1)) (List.length (children w1)) =
     Some (spawned h t)
  /\ option_map state (nth_error (children (start h t w1)) pid) =
     Some (Exited None)
  /\ outcome_of w2 pr = Some Pending
  /\ outcome_of w3 pr = Some (Rejected (ExitedWithCode None))
  /\ message (ExitedWithCode None) = js "addr2line exited with code null"
  /\ process w3 = None
  /\ forall q, q <> pid -> nth_error (children w3) q = nth_error (children w2) q.
Proof.
  intros h es0 l es1 t es2 pid c1 w pr deadline P Q1 w1 P1 Hc1 S1 Q2 w2 w3.
  destruct (request_child h es0 l pid es1 P Q1)
    as (W1 & c1' & Hc1' & _ & Hl & Hclear).
  fold w pr deadline w1 in W1, Hc1', Hl, Hclear.
  rewrite Hc1 in Hc1'. inversion Hc1'; subst c1'. clear Hc1'.
  destruct (start_spec h t w1) as (S1' & S2' & _ & _ & _).
  assert (Hlt : (pid < List.length (children w1))%nat)
    by (apply nth_error_Some; rewrite Hc1; discriminate).
  assert (Hk : nth_error (children (start h t w1)) pid =
               Some (with_state (Exited None) c1)).
  { unfold start. rewrite P1. cbn [children set_process set_children kill].
    rewrite nth_error_app1 by (rewrite length_update_nth; lia).
    rewrite nth_error_update_nth_eq, Hc1. cbn [option_map].
    unfold kill_child. now rewrite S1. }
  assert (W2 : waiting pr pid deadline w2).
  { apply waiting_run; auto. now apply waiting_start. }
  destruct (evolves_run h pid deadline es2 _ _ Q2 Hk) as (c3 & Hc3 & E3).
  fold w2 in Hc3.
  assert (S3 : state c3 = Exited None)
    by (apply (evolves_exited _ _ None E3); reflexivity).
  destruct (listeners_after _ w2 pid _ c3 (grows_run h es2 (start h t w1)) Hk Hc3)
    as (extra & L3).
  cbn [listeners with_state] in L3.
  split; [exact S1'|]. split; [exact S2'|].
  split; [now rewrite Hk|]. split; [apply W2|]. split.
  { apply (close_rejects h w2 pid c3); auto; [|apply W2].
    rewrite L3. apply in_or_app; left. apply Hl. simpl; auto. }
  split; [reflexivity|].
  subst w3. cbn [step]. rewrite Hc3, S3. split.
  - apply on_close_clears. rewrite L3. apply in_or_app; now left.
  - intros q Hq. rewrite on_close_children. cbn [children set_children].
    now apply nth_error_update_nth_neq.
Qed.

Lemma restart_rejects_pending_request_witness :
  outcome_of
    (step example_host
       (run example_host
          (start example_host (js "/linux/vmlinux")
             (run example_host
                (handleTerminalLink example_host (example_link frame)
                   (run example_host init [MonitorTarget]))
                [Tick 100]))
          [Tick 200; HandleLink (example_link frame)])
       (ChildClose 0))
    (List.length (promises (run example_host init [MonitorTarget]))) =
  Some (Rejected (ExitedWithCode None)).
Proof.
  pose proof (restart_rejects_pending_request example_host [MonitorTarget]
                (example_link frame) [Tick 100] (js "/linux/vmlinux")
                [Tick 200; HandleLink (example_link frame)] 0
                (write_stdin (frame ++ [cu_newline])
                   (add_listeners (query_listeners 0)
                      (spawned example_host (js "/linux/vmlinux"))))
                ltac:(vm_compute; reflexivity) ltac:(vm_compute; reflexivity)
                ltac:(vm_compute; reflexivity) ltac:(vm_compute; reflexivity)
                ltac:(vm_compute; reflexivity) ltac:(vm_compute; reflexivity))
    as (_ & _ & _ & _ & H & _).
  exact H.
Defined.
